(** * JSON-RPC client (client.go): wire codec and client facade

    A shallow embedding of [Client.ReadMsg], [Client.WriteMsg] and the
    write helpers of client.go, together with a byte-level model of the
    parts of Go's [encoding/json] they call.

    Conventions of the model: a JSON number keeps its lexeme, and the
    places where Go converts it (to [float64] in a generic value, to
    [int] in the error code) check that the conversion succeeds; an
    object keeps its members in document order, where a Go map keeps the
    last member of each name; [int] has 64 bits. *)

From Stdlib Require Import List ZArith NArith Lia Bool String.
From Stdlib.Strings Require Import Byte.
Import ListNotations.

Local Open Scope N_scope.

(** ** Bytes and Go strings

    A Go [string] and a Go [[]byte] are both finite byte sequences. *)

Definition bytes := list byte.

Definition bytes_eqb (a b : bytes) : bool :=
  if list_eq_dec Byte.byte_eq_dec a b then true else false.

(** The byte with the given code (codes are taken modulo 256). *)
Definition b8 (n : N) : byte :=
  match Byte.of_N (n mod 256) with
  | Some b => b
  | None => x00
  end.

Definition code (b : byte) : N := Byte.to_N b.

(** Go source text of a byte string; an apostrophe stands for the double
    quote, so that JSON documents can be written inline. *)
Definition wire (s : string) : bytes :=
  map (fun b => if Byte.eqb b x27 then x22 else b) (list_byte_of_string s).

Definition str (s : string) : bytes := list_byte_of_string s.

(** ** unicode/utf8 and unicode/utf16 *)

Definition RuneError : N := 0xFFFD.

Definition is_cont (b : byte) : bool := (0x80 <=? code b) && (code b <=? 0xBF).

(** [utf8.DecodeRune]: the first rune of [s] and the bytes after it.  An
    empty, truncated or ill-formed encoding gives [None]; Go reports it as
    [(RuneError, 1)] (or [(RuneError, 0)] on empty input). *)
Definition utf8_decode (s : bytes) : option (N * bytes) :=
  match s with
  | [] => None
  | b0 :: t =>
    let c0 := code b0 in
    if c0 <? 0x80 then Some (c0, t)
    else if c0 <? 0xC2 then None
    else if c0 <? 0xE0 then
      match t with
      | b1 :: t1 =>
        if is_cont b1 then Some ((c0 - 0xC0) * 64 + (code b1 - 0x80), t1)
        else None
      | _ => None
      end
    else if c0 <? 0xF0 then
      match t with
      | b1 :: b2 :: t2 =>
        let lo := if c0 =? 0xE0 then 0xA0 else 0x80 in
        let hi := if c0 =? 0xED then 0x9F else 0xBF in
        if (lo <=? code b1) && (code b1 <=? hi) && is_cont b2 then
          Some ((c0 - 0xE0) * 4096 + (code b1 - 0x80) * 64 + (code b2 - 0x80), t2)
        else None
      | _ => None
      end
    else if c0 <? 0xF5 then
      match t with
      | b1 :: b2 :: b3 :: t3 =>
        let lo := if c0 =? 0xF0 then 0x90 else 0x80 in
        let hi := if c0 =? 0xF4 then 0x8F else 0xBF in
        if (lo <=? code b1) && (code b1 <=? hi) && is_cont b2 && is_cont b3 then
          Some ((c0 - 0xF0) * 262144 + (code b1 - 0x80) * 4096
                + (code b2 - 0x80) * 64 + (code b3 - 0x80), t3)
        else None
      | _ => None
      end
    else None
  end.

Definition is_surrogate (r : N) : bool := (0xD800 <=? r) && (r <? 0xE000).

(** [utf8.AppendRune]: surrogates and runes above U+10FFFF are encoded as
    U+FFFD. *)
Definition utf8_encode (r : N) : bytes :=
  if r <? 0x80 then [b8 r]
  else if r <? 0x800 then [b8 (0xC0 + r / 64); b8 (0x80 + r mod 64)]
  else if is_surrogate r || (0x10FFFF <? r) then [xef; xbf; xbd]
  else if r <? 0x10000 then
    [b8 (0xE0 + r / 4096); b8 (0x80 + (r / 64) mod 64); b8 (0x80 + r mod 64)]
  else
    [b8 (0xF0 + r / 262144); b8 (0x80 + (r / 4096) mod 64);
     b8 (0x80 + (r / 64) mod 64); b8 (0x80 + r mod 64)].

(** [utf16.DecodeRune]. *)
Definition utf16_decode (r1 r2 : N) : N :=
  if (0xD800 <=? r1) && (r1 <? 0xDC00) && (0xDC00 <=? r2) && (r2 <? 0xE000)
  then (r1 - 0xD800) * 1024 + (r2 - 0xDC00) + 0x10000
  else RuneError.

(** A Go string is valid UTF-8 when it splits into well-formed encodings
    ([utf8.Valid]). *)
Fixpoint utf8_valid_fuel (fuel : nat) (s : bytes) : bool :=
  match fuel with
  | O => false
  | S fuel' =>
    match s with
    | [] => true
    | _ => match utf8_decode s with
           | Some (_, rest) => utf8_valid_fuel fuel' rest
           | None => false
           end
    end
  end.

Definition utf8_valid (s : bytes) : bool := utf8_valid_fuel (S (List.length s)) s.

(** ** encoding/json: values and the scanner

    A JSON document as the scanner sees it.  A number keeps its lexeme (Go
    turns it into a [float64], or into the integer a typed target asks
    for); an object keeps its members in document order. *)

#[warnings="-register-all"]
Inductive json : Type :=
| JNull
| JBool (b : bool)
| JNum (lexeme : bytes)
| JStr (s : bytes)
| JArr (elems : list json)
| JObj (members : list (bytes * json)).

Definition is_ws (b : byte) : bool :=
  match b with
  | x20 | x09 | x0a | x0d => true
  | _ => false
  end.

Fixpoint skip_ws (s : bytes) : bytes :=
  match s with
  | b :: t => if is_ws b then skip_ws t else s
  | [] => []
  end.

Definition is_digit (b : byte) : bool := (48 <=? code b) && (code b <=? 57).

Fixpoint span_digits (s : bytes) : bytes * bytes :=
  match s with
  | b :: t =>
    if is_digit b then let (ds, r) := span_digits t in (b :: ds, r) else ([], s)
  | [] => ([], [])
  end.

Definition hexval (b : byte) : option N :=
  let c := code b in
  if (48 <=? c) && (c <=? 57) then Some (c - 48)
  else if (97 <=? c) && (c <=? 102) then Some (c - 87)
  else if (65 <=? c) && (c <=? 70) then Some (c - 55)
  else None.

(** [getu4]: the code unit of a leading backslash-u escape. *)
Definition getu4 (s : bytes) : option (N * bytes) :=
  match s with
  | x5c :: x75 :: h1 :: h2 :: h3 :: h4 :: rest =>
    match hexval h1, hexval h2, hexval h3, hexval h4 with
    | Some a, Some b, Some c, Some d => Some (((a * 16 + b) * 16 + c) * 16 + d, rest)
    | _, _, _, _ => None
    end
  | _ => None
  end.

Definition prepend (p : bytes) (r : option (bytes * bytes)) : option (bytes * bytes) :=
  match r with
  | Some (s, rest) => Some (p ++ s, rest)
  | None => None
  end.

(** The scanner's string state together with [unquote]: [s] starts after
    the opening quote; the result is the decoded Go string and the input
    after the closing quote.  Control characters, unknown escapes and a
    missing closing quote are syntax errors; ill-formed UTF-8 and unpaired
    surrogates are replaced by U+FFFD. *)
Fixpoint unquote (fuel : nat) (s : bytes) : option (bytes * bytes) :=
  match fuel with
  | O => None
  | S f =>
    match s with
    | [] => None
    | x22 :: rest => Some ([], rest)
    | x5c :: e :: rest =>
      match e with
      | x22 | x5c | x2f => prepend [e] (unquote f rest)
      | x62 => prepend [x08] (unquote f rest)
      | x66 => prepend [x0c] (unquote f rest)
      | x6e => prepend [x0a] (unquote f rest)
      | x72 => prepend [x0d] (unquote f rest)
      | x74 => prepend [x09] (unquote f rest)
      | x75 =>
        match getu4 s with
        | None => None
        | Some (rr, rest1) =>
          if is_surrogate rr then
            match getu4 rest1 with
            | Some (rr1, rest2) =>
              let dec := utf16_decode rr rr1 in
              if dec =? RuneError
              then prepend (utf8_encode RuneError) (unquote f rest1)
              else prepend (utf8_encode dec) (unquote f rest2)
            | None => prepend (utf8_encode RuneError) (unquote f rest1)
            end
          else prepend (utf8_encode rr) (unquote f rest1)
        end
      | _ => None
      end
    | c :: rest =>
      if code c <? 0x20 then None
      else if code c <? 0x80 then prepend [c] (unquote f rest)
      else match utf8_decode s with
           | Some (r, rest') => prepend (utf8_encode r) (unquote f rest')
           | None => prepend (utf8_encode RuneError) (unquote f rest)
           end
    end
  end.

(** The scanner's number states: an optional minus, an integer part
    without leading zeros, an optional fraction, an optional exponent. *)
Definition scan_int (s : bytes) : option (bytes * bytes) :=
  match s with
  | x30 :: t => Some ([x30], t)
  | d :: t =>
    if is_digit d then let (ds, r) := span_digits t in Some (d :: ds, r) else None
  | [] => None
  end.

Definition scan_frac (s : bytes) : option (bytes * bytes) :=
  match s with
  | x2e :: t =>
    match span_digits t with
    | ([], _) => None
    | (ds, r) => Some (x2e :: ds, r)
    end
  | _ => Some ([], s)
  end.

Definition scan_exp (s : bytes) : option (bytes * bytes) :=
  match s with
  | e :: t =>
    if Byte.eqb e x65 || Byte.eqb e x45 then
      let (sg, t1) := match t with
                      | x2b :: u => ([x2b], u)
                      | x2d :: u => ([x2d], u)
                      | _ => ([], t)
                      end in
      match span_digits t1 with
      | ([], _) => None
      | (ds, r) => Some (e :: sg ++ ds, r)
      end
    else Some ([], s)
  | [] => Some ([], [])
  end.

Definition scan_number (s : bytes) : option (bytes * bytes) :=
  let (sg, s1) := match s with
                  | x2d :: t => ([x2d], t)
                  | _ => ([], s)
                  end in
  match scan_int s1 with
  | None => None
  | Some (i, s2) =>
    match scan_frac s2 with
    | None => None
    | Some (f, s3) =>
      match scan_exp s3 with
      | None => None
      | Some (e, s4) => Some (sg ++ i ++ f ++ e, s4)
      end
    end
  end.

(** The scanner refuses documents nested deeper than this. *)
Definition maxNestingDepth : nat := Eval vm_compute in (100 * 100)%nat.

(** One JSON value at the head of [s] (leading white space skipped) and
    the input after it; [depth] is the number of arrays and objects that
    may still be opened. *)
Fixpoint parse_value (fuel depth : nat) (s : bytes) : option (json * bytes) :=
  match fuel with
  | O => None
  | S f =>
    match skip_ws s with
    | x7b :: t =>
      match depth with
      | O => None
      | S d =>
        match skip_ws t with
        | x7d :: r => Some (JObj [], r)
        | _ => match parse_members f d t with
               | Some (ms, r) => Some (JObj ms, r)
               | None => None
               end
        end
      end
    | x5b :: t =>
      match depth with
      | O => None
      | S d =>
        match skip_ws t with
        | x5d :: r => Some (JArr [], r)
        | _ => match parse_elems f d t with
               | Some (vs, r) => Some (JArr vs, r)
               | None => None
               end
        end
      end
    | x22 :: t =>
      match unquote (S (List.length t)) t with
      | Some (str, r) => Some (JStr str, r)
      | None => None
      end
    | x74 :: x72 :: x75 :: x65 :: r => Some (JBool true, r)
    | x66 :: x61 :: x6c :: x73 :: x65 :: r => Some (JBool false, r)
    | x6e :: x75 :: x6c :: x6c :: r => Some (JNull, r)
    | s' =>
      match scan_number s' with
      | Some (lx, r) => Some (JNum lx, r)
      | None => None
      end
    end
  end
with parse_elems (fuel depth : nat) (s : bytes) : option (list json * bytes) :=
  match fuel with
  | O => None
  | S f =>
    match parse_value f depth s with
    | Some (v, r) =>
      match skip_ws r with
      | x2c :: r' =>
        match parse_elems f depth r' with
        | Some (vs, r'') => Some (v :: vs, r'')
        | None => None
        end
      | x5d :: r' => Some ([v], r')
      | _ => None
      end
    | None => None
    end
  end
with parse_members (fuel depth : nat) (s : bytes) : option (list (bytes * json) * bytes) :=
  match fuel with
  | O => None
  | S f =>
    match skip_ws s with
    | x22 :: t =>
      match unquote (S (List.length t)) t with
      | Some (k, r) =>
        match skip_ws r with
        | x3a :: r1 =>
          match parse_value f depth r1 with
          | Some (v, r2) =>
            match skip_ws r2 with
            | x2c :: r3 =>
              match parse_members f depth r3 with
              | Some (ms, r4) => Some ((k, v) :: ms, r4)
              | None => None
              end
            | x7d :: r3 => Some ([(k, v)], r3)
            | _ => None
            end
          | None => None
          end
        | _ => None
        end
      | None => None
      end
    | _ => None
    end
  end.

(** [checkValid] and the generic scan of a whole document: one value,
    then only white space. *)
Definition parse (data : bytes) : option json :=
  match parse_value (2 * List.length data + 2) maxNestingDepth data with
  | Some (v, r) => match skip_ws r with
                   | [] => Some v
                   | _ => None
                   end
  | None => None
  end.

(** ** encoding/json: decoding into Go values *)

(** What a call of the package can report. *)
Inductive error : Type :=
| ErrConn (e : string)        (* an error of the neptulon connection *)
| ErrGenID (e : string)       (* an error of neptulon.GenID *)
| ErrSyntax                   (* *json.SyntaxError *)
| ErrUnmarshalType            (* *json.UnmarshalTypeError *)
| ErrMarshal                  (* *json.UnsupportedTypeError / UnsupportedValueError *)
| ErrMalformedMessage.        (* errors.New("Received a malformed message.") *)

(** A [json.RawMessage]: nil, or the text of one JSON value.  The text is
    kept in scanned form; [json.Unmarshal] on it scans the same value. *)
Definition RawMessage := option json.

(** The Go types a caller's destination may have in this model. *)
Inductive gotype : Type := TInterface | TString | TInt | TBool.

(** A value of Go type [interface{}], as far as [encoding/json] can tell
    values apart. *)
#[warnings="-register-all"]
Inductive iface : Type :=
| Nil                                   (* the nil interface *)
| Generic (v : json)                    (* the generic value of document [v]: bool, float64,
                                           string, []interface{}, map[string]interface{} *)
| Pointer (t : gotype) (content : json) (* a non-nil pointer to a [t]; its content as JSON *)
| RawMsg (r : RawMessage)               (* a json.RawMessage *)
| Slice (elems : option (list iface))   (* a []interface{}; [None] is the nil slice *)
| Unsupported.                          (* a channel, a function, ... *)

Definition is_nil (i : iface) : bool :=
  match i with
  | Nil => true
  | _ => false
  end.

Definition digit_val (b : byte) : N := code b - 48.

Definition digits_to_N (ds : bytes) : N :=
  fold_left (fun a d => a * 10 + digit_val d) ds 0.

Definition all_digits (ds : bytes) : bool :=
  match ds with
  | [] => false
  | _ => forallb is_digit ds
  end.

(** [strconv.ParseInt(lexeme, 10, 64)] on a number lexeme: fractions,
    exponents and values outside int64 are refused. *)
Definition int_of_lexeme (lx : bytes) : option Z :=
  let z := match lx with
           | x2d :: ds => if all_digits ds then Some (- Z.of_N (digits_to_N ds))%Z else None
           | ds => if all_digits ds then Some (Z.of_N (digits_to_N ds)) else None
           end in
  match z with
  | Some n => if ((- 2 ^ 63 <=? n) && (n <? 2 ^ 63))%Z then Some n else None
  | None => None
  end.

Fixpoint digits_fuel (fuel : nat) (n : N) (acc : bytes) : bytes :=
  match fuel with
  | O => acc
  | S f =>
    let acc' := b8 (48 + n mod 10) :: acc in
    if n <? 10 then acc' else digits_fuel f (n / 10) acc'
  end.

Definition print_N (n : N) : bytes := digits_fuel (S (N.to_nat (N.log2 n))) n [].

(** [strconv.AppendInt(z, 10)]. *)
Definition print_Z (z : Z) : bytes :=
  match z with
  | Zneg p => x2d :: print_N (Npos p)
  | _ => print_N (Z.to_N z)
  end.

(** The exponent an exponent part stands for. *)
Definition exp_value (e : bytes) : Z :=
  match e with
  | _ :: x2d :: ds => (- Z.of_N (digits_to_N ds))%Z
  | _ :: x2b :: ds => Z.of_N (digits_to_N ds)
  | _ :: ds => Z.of_N (digits_to_N ds)
  | [] => 0%Z
  end.

(** The least magnitude that [strconv.ParseFloat(s, 64)] rounds to an
    infinity: half an ulp above the largest float64. *)
Definition float64_limit : Z := ((2 ^ 54 - 1) * 2 ^ 970)%Z.

(** Whether [strconv.ParseFloat(lexeme, 64)] succeeds: the digits [m]
    and the decimal exponent [ex] of the lexeme give a magnitude below
    [float64_limit].  Very large and very small exponents are decided
    without computing the power. *)
Definition in_float64_range (lx : bytes) : bool :=
  let s1 := match lx with
            | x2d :: t => t
            | _ => lx
            end in
  match scan_int s1 with
  | Some (i, s2) =>
    match scan_frac s2 with
    | Some (f, s3) =>
      match scan_exp s3 with
      | Some (e, _) =>
        let ds := i ++ tl f in
        let m := Z.of_N (digits_to_N ds) in
        let ex := (exp_value e - Z.of_nat (List.length (tl f)))%Z in
        if (m =? 0)%Z then true
        else if (400 <? ex)%Z then false
        else if (ex <? - Z.of_nat (List.length ds))%Z then true
        else if (0 <=? ex)%Z then (m * 10 ^ ex <? float64_limit)%Z
        else (m <? float64_limit * 10 ^ (- ex))%Z
      | None => false
      end
    | None => false
    end
  | None => false
  end.

(** Values all of whose numbers fit a float64; the generic decode
    reports any other number as a type error. *)
Fixpoint finite (v : json) : bool :=
  match v with
  | JNum lx => in_float64_range lx
  | JArr l => forallb finite l
  | JObj ms => forallb (fun kv => finite (snd kv)) ms
  | _ => true
  end.

(** Storing a scanned value in a destination of type [t] that holds
    [cur]: the new content, or [None] for a type mismatch. *)
Definition store (t : gotype) (cur v : json) : option json :=
  match t, v with
  | TInterface, _ => if finite v then Some v else None
  | _, JNull => Some cur
  | TString, JStr s => Some (JStr s)
  | TBool, JBool b => Some (JBool b)
  | TInt, JNum lx =>
    match int_of_lexeme lx with
    | Some z => Some (JNum (print_Z z))
    | None => None
    end
  | _, _ => None
  end.

(** [json.Unmarshal(raw, &p)] for [p] of type [interface{}].  A nil or
    empty [raw] is a syntax error (unexpected end of JSON input).  When
    [p] holds a non-nil pointer the value is stored through it, except
    that JSON null sets [p] itself to nil; otherwise [p] receives the
    generic value, in which every number is a float64. *)
Definition unmarshal_iface (raw : RawMessage) (p : iface) : error + iface :=
  match raw with
  | None => inl ErrSyntax
  | Some JNull => inr Nil
  | Some v =>
    match p with
    | Pointer t cur =>
      match store t cur v with
      | Some c => inr (Pointer t c)
      | None => inl ErrUnmarshalType
      end
    | _ => if finite v then inr (Generic v) else inl ErrUnmarshalType
    end
  end.

(** Modelled from the spec: the unexported envelope types [message] and
    [resError] are declared outside client.go.  The spec gives the
    envelope as the raw JSON fields id, method, params, result, error and
    the error object as code (integer), message (string), data; client.go
    fixes the Go types by the way it uses the fields. *)
Record resError : Type := mkResError {
  re_Code : Z;
  re_Message : bytes;
  re_Data : RawMessage
}.

Record message : Type := mkMessage {
  msg_ID : bytes;
  msg_Method : bytes;
  msg_Params : RawMessage;
  msg_Result : RawMessage;
  msg_Error : option resError
}.

(** Modelled from the spec: the exported message types are declared
    outside client.go. *)
Record ResError : Type := mkRE {
  Code : Z;
  Message : bytes;
  Data : iface
}.

Record Request : Type := mkRequest {
  req_ID : bytes;
  req_Method : bytes;
  req_Params : iface
}.

Record Response : Type := mkResponse {
  res_ID : bytes;
  res_Result : iface;
  res_Error : option ResError
}.

Record Notification : Type := mkNotification {
  not_Method : bytes;
  not_Params : iface
}.

(** Field lookup folds case: ASCII letters, and the two runes whose
    simple fold is an ASCII letter (U+017F to S, U+212A to K). *)
Fixpoint fold_key (k : bytes) : bytes :=
  match k with
  | xc5 :: xbf :: t => x53 :: fold_key t
  | xe2 :: x84 :: xaa :: t => x4b :: fold_key t
  | b :: t =>
    (if (97 <=? code b) && (code b <=? 122) then b8 (code b - 32) else b) :: fold_key t
  | [] => []
  end.

Definition key_is (k : bytes) (name : string) : bool :=
  bytes_eqb (fold_key k) (fold_key (str name)).

(** Decoding one member into a field; [None] is a type mismatch, which
    [Unmarshal] remembers and reports once the object is done. *)
Definition set_string (cur : bytes) (v : json) : option bytes :=
  match v with
  | JStr s => Some s
  | JNull => Some cur
  | _ => None
  end.

Definition set_int (cur : Z) (v : json) : option Z :=
  match v with
  | JNum lx => int_of_lexeme lx
  | JNull => Some cur
  | _ => None
  end.

Definition zero_resError : resError := mkResError 0 [] None.

Definition resError_member (st : option resError) (kv : bytes * json) : option resError :=
  match st with
  | None => None
  | Some e =>
    let (k, v) := kv in
    if key_is k "code" then
      match set_int (re_Code e) v with
      | Some c => Some (mkResError c (re_Message e) (re_Data e))
      | None => None
      end
    else if key_is k "message" then
      match set_string (re_Message e) v with
      | Some m => Some (mkResError (re_Code e) m (re_Data e))
      | None => None
      end
    else if key_is k "data" then Some (mkResError (re_Code e) (re_Message e) (Some v))
    else Some e
  end.

Definition decode_resError (ms : list (bytes * json)) (e : resError) : option resError :=
  fold_left resError_member ms (Some e).

Definition message_member (st : option message) (kv : bytes * json) : option message :=
  match st with
  | None => None
  | Some m =>
    let (k, v) := kv in
    if key_is k "id" then
      match set_string (msg_ID m) v with
      | Some s => Some (mkMessage s (msg_Method m) (msg_Params m) (msg_Result m) (msg_Error m))
      | None => None
      end
    else if key_is k "method" then
      match set_string (msg_Method m) v with
      | Some s => Some (mkMessage (msg_ID m) s (msg_Params m) (msg_Result m) (msg_Error m))
      | None => None
      end
    else if key_is k "params" then
      Some (mkMessage (msg_ID m) (msg_Method m) (Some v) (msg_Result m) (msg_Error m))
    else if key_is k "result" then
      Some (mkMessage (msg_ID m) (msg_Method m) (msg_Params m) (Some v) (msg_Error m))
    else if key_is k "error" then
      match v with
      | JNull => Some (mkMessage (msg_ID m) (msg_Method m) (msg_Params m) (msg_Result m) None)
      | JObj ms =>
        let e := match msg_Error m with
                 | Some e => e
                 | None => zero_resError
                 end in
        match decode_resError ms e with
        | Some e' =>
          Some (mkMessage (msg_ID m) (msg_Method m) (msg_Params m) (msg_Result m) (Some e'))
        | None => None
        end
      | _ => None
      end
    else Some m
  end.

Definition zero_message : message := mkMessage [] [] None None None.

(** [json.Unmarshal(data, &msg)] for [msg := message{}]: a syntax error
    when [data] is not one JSON value, a type error when the value is
    neither an object nor null or a member does not fit its field. *)
Definition unmarshal_message (data : bytes) : error + message :=
  match parse data with
  | None => inl ErrSyntax
  | Some (JObj ms) =>
    match fold_left message_member ms (Some zero_message) with
    | Some m => inr m
    | None => inl ErrUnmarshalType
    end
  | Some JNull => inr zero_message
  | Some _ => inl ErrUnmarshalType
  end.

(** ** The connection

    [neptulon.Conn] is external.  It is modelled as a pair of streams: the
    outcomes of the [Read] calls to come, and the frames handed to [Write]
    so far together with the outcomes of the [Write] calls to come.  Two
    counters record how often each side was used. *)

Record Conn : Type := mkConn {
  incoming : list (error + bytes);
  reads : nat;
  write_outcomes : list (option error);
  sent : list bytes;
  writes : nat
}.

(** [c.conn.Read()]: the next outcome; an exhausted stream reports an
    error (deadline exceeded or connection closed). *)
Definition conn_Read (c : Conn) : (error + bytes) * Conn :=
  match incoming c with
  | r :: rest => (r, mkConn rest (S (reads c)) (write_outcomes c) (sent c) (writes c))
  | [] => (inl (ErrConn "read: connection closed"),
           mkConn [] (S (reads c)) (write_outcomes c) (sent c) (writes c))
  end.

(** [c.conn.Write(data)]: the frame is recorded when the call succeeds. *)
Definition conn_Write (c : Conn) (data : bytes) : option error * Conn :=
  match write_outcomes c with
  | Some e :: rest => (Some e, mkConn (incoming c) (reads c) rest (sent c) (S (writes c)))
  | None :: rest =>
    (None, mkConn (incoming c) (reads c) rest (sent c ++ [data]) (S (writes c)))
  | [] => (None, mkConn (incoming c) (reads c) [] (sent c ++ [data]) (S (writes c)))
  end.

(** ** Client.ReadMsg *)

Definition is_empty (s : bytes) : bool :=
  match s with
  | [] => true
  | _ => false
  end.

(** The four named results [req], [res], [not], [err]. *)
Record ReadResult : Type := mkRead {
  r_req : option Request;
  r_res : option Response;
  r_not : option Notification;
  r_err : option error
}.

(** The decoding part of [ReadMsg], after [c.conn.Read()] has returned
    [data] (lines 42 to 93). *)
Definition decodeMsg (data : bytes) (resultData paramsData : iface) : ReadResult :=
  match unmarshal_message data with
  | inl e => mkRead None None None (Some e)
  | inr msg =>
    if negb (is_empty (msg_ID msg)) then
      if negb (is_empty (msg_Method msg)) then
        let p := if negb (is_nil paramsData) then paramsData else Nil in
        match unmarshal_iface (msg_Params msg) p with
        | inl e => mkRead None None None (Some e)
        | inr p' =>
          mkRead (Some (mkRequest (msg_ID msg) (msg_Method msg) p')) None None None
        end
      else
        let r := if negb (is_nil resultData) then resultData else Nil in
        let decoded := match msg_Result msg with
                       | Some _ => unmarshal_iface (msg_Result msg) r
                       | None => inr r
                       end in
        match decoded with
        | inl e => mkRead None None None (Some e)
        | inr r' =>
          match msg_Error msg with
          | Some e =>
            match unmarshal_iface (re_Data e) Nil with
            | inl err =>
              mkRead None
                     (Some (mkResponse (msg_ID msg) r'
                                       (Some (mkRE (re_Code e) (re_Message e) Nil))))
                     None (Some err)
            | inr d =>
              mkRead None
                     (Some (mkResponse (msg_ID msg) r'
                                       (Some (mkRE (re_Code e) (re_Message e) d))))
                     None None
            end
          | None => mkRead None (Some (mkResponse (msg_ID msg) r' None)) None None
          end
        end
    else
      let not := if negb (is_empty (msg_Method msg))
                 then Some (mkNotification (msg_Method msg) (RawMsg (msg_Params msg)))
                 else None in
      mkRead None None not (Some ErrMalformedMessage)
  end.

Definition ReadMsg (c : Conn) (resultData paramsData : iface) : ReadResult * Conn :=
  match conn_Read c with
  | (inl e, c') => (mkRead None None None (Some e), c')
  | (inr data, c') => (decodeMsg data resultData paramsData, c')
  end.

(** ** encoding/json: encoding *)

Definition hex_digit (n : N) : byte :=
  if n <? 10 then b8 (48 + n) else b8 (87 + n).

(** Bytes below 0x80 that [appendString] copies unchanged when HTML
    escaping is on, as it is for [json.Marshal]. *)
Definition html_safe (b : byte) : bool :=
  (0x20 <=? code b) && (code b <? 0x80)
  && negb (Byte.eqb b x22) && negb (Byte.eqb b x5c)
  && negb (Byte.eqb b x3c) && negb (Byte.eqb b x3e) && negb (Byte.eqb b x26).

Definition escape_ascii (b : byte) : bytes :=
  match b with
  | x5c | x22 => [x5c; b]
  | x08 => [x5c; x62]
  | x0c => [x5c; x66]
  | x0a => [x5c; x6e]
  | x0d => [x5c; x72]
  | x09 => [x5c; x74]
  | _ => [x5c; x75; x30; x30; hex_digit (code b / 16); hex_digit (code b mod 16)]
  end.

(** The body of [appendString]: a Go string as the inside of a JSON
    string.  Ill-formed UTF-8 is written as the escape of U+FFFD. *)
Fixpoint escape (fuel : nat) (s : bytes) : bytes :=
  match fuel with
  | O => []
  | S f =>
    match s with
    | [] => []
    | b :: t =>
      if code b <? 0x80 then
        (if html_safe b then [b] else escape_ascii b) ++ escape f t
      else
        match utf8_decode s with
        | None => [x5c; x75; x66; x66; x66; x64] ++ escape f t
        | Some (r, rest) =>
          if r =? 0x2028 then [x5c; x75; x32; x30; x32; x38] ++ escape f rest
          else if r =? 0x2029 then [x5c; x75; x32; x30; x32; x39] ++ escape f rest
          else utf8_encode r ++ escape f rest
        end
    end
  end.

Definition quote (s : bytes) : bytes := x22 :: escape (List.length s) s ++ [x22].

Fixpoint join (parts : list bytes) : bytes :=
  match parts with
  | [] => []
  | [p] => p
  | p :: rest => p ++ x2c :: join rest
  end.

(** The compact text of a value. *)
Fixpoint print (v : json) : bytes :=
  match v with
  | JNull => str "null"
  | JBool true => str "true"
  | JBool false => str "false"
  | JNum lx => lx
  | JStr s => quote s
  | JArr l => x5b :: join (map print l) ++ [x5d]
  | JObj ms => x7b :: join (map (fun kv => quote (fst kv) ++ x3a :: print (snd kv)) ms) ++ [x7d]
  end.

Definition valid_number (lx : bytes) : bool :=
  match scan_number lx with
  | Some (_, []) => true
  | _ => false
  end.

(** Values whose numbers are finite; [Marshal] refuses NaN and the
    infinities, and refuses a [RawMessage] that is not valid JSON. *)
Fixpoint encodable (v : json) : bool :=
  match v with
  | JNum lx => valid_number lx
  | JArr l => forallb encodable l
  | JObj ms => forallb (fun kv => encodable (snd kv)) ms
  | _ => true
  end.

Definition checked (v : json) : option json := if encodable v then Some v else None.

Fixpoint sequence {A : Type} (l : list (option A)) : option (list A) :=
  match l with
  | [] => Some []
  | Some a :: t => match sequence t with
                   | Some r => Some (a :: r)
                   | None => None
                   end
  | None :: _ => None
  end.

(** The JSON value [Marshal] writes for an [interface{}], or [None] when
    it reports an error. *)
Fixpoint image (i : iface) : option json :=
  match i with
  | Nil => Some JNull
  | Generic v => checked v
  | Pointer _ c => checked c
  | RawMsg (Some v) => checked v
  | RawMsg None => Some JNull
  | Slice None => Some JNull
  | Slice (Some l) =>
    match sequence (map image l) with
    | Some vs => Some (JArr vs)
    | None => None
    end
  | Unsupported => None
  end.

(** ** Writing *)

Inductive Msg : Type :=
| MRequest (r : Request)
| MNotification (n : Notification)
| MResponse (r : Response)
| MOther (v : iface).

(** The identifier generator [neptulon.GenID] is external: the outcomes
    of the calls to come, and the number of calls made. *)
Record Gen : Type := mkGen {
  gen_outcomes : list (error + bytes);
  gen_calls : nat
}.

Definition GenID (g : Gen) : (error + bytes) * Gen :=
  match gen_outcomes g with
  | r :: rest => (r, mkGen rest (S (gen_calls g)))
  | [] => (inl (ErrGenID "entropy source exhausted"), mkGen [] (S (gen_calls g)))
  end.

Section Writing.

(** Modelled from the spec: the struct tags of [Request], [Response],
    [Notification] and [ResError] are declared outside client.go.  The
    spec fixes the member names and leaves open whether a member
    without a value is omitted or written as null; [omitempty] says
    whether params, result, error and data carry that option. *)
Variable omitempty : bool.

Definition optional (name : string) (i : iface) : option (list (bytes * json)) :=
  if omitempty && is_nil i then Some []
  else match image i with
       | Some v => Some [(str name, v)]
       | None => None
       end.

Definition fields_ResError (e : ResError) : option json :=
  match optional "data" (Data e) with
  | Some d =>
    Some (JObj ([(str "code", JNum (print_Z (Code e)));
                 (str "message", JStr (Message e))] ++ d))
  | None => None
  end.

Definition fields (m : Msg) : option json :=
  match m with
  | MRequest q =>
    match optional "params" (req_Params q) with
    | Some p => Some (JObj ([(str "id", JStr (req_ID q));
                             (str "method", JStr (req_Method q))] ++ p))
    | None => None
    end
  | MNotification n =>
    match optional "params" (not_Params n) with
    | Some p => Some (JObj ((str "method", JStr (not_Method n)) :: p))
    | None => None
    end
  | MResponse r =>
    match optional "result" (res_Result r) with
    | Some res =>
      match res_Error r with
      | None =>
        Some (JObj ((str "id", JStr (res_ID r)) :: res
                    ++ (if omitempty then [] else [(str "error", JNull)])))
      | Some e =>
        match fields_ResError e with
        | Some je => Some (JObj ((str "id", JStr (res_ID r)) :: res ++ [(str "error", je)]))
        | None => None
        end
      end
    | None => None
    end
  | MOther v => image v
  end.

(** [json.Marshal(msg)]. *)
Definition Marshal (m : Msg) : error + bytes :=
  match fields m with
  | Some v => inr (print v)
  | None => inl ErrMarshal
  end.

Definition WriteMsg (c : Conn) (msg : Msg) : option error * Conn :=
  match Marshal msg with
  | inl err => (Some err, c)
  | inr data =>
    match conn_Write c data with
    | (Some err, c') => (Some err, c')
    | (None, c') => (None, c')
    end
  end.

Definition WriteRequest (g : Gen) (c : Conn) (method : bytes) (params : iface)
  : (bytes * option error) * Gen * Conn :=
  match GenID g with
  | (inl err, g') => (([], Some err), g', c)
  | (inr id, g') =>
    let (err, c') := WriteMsg c (MRequest (mkRequest id method params)) in
    ((id, err), g', c')
  end.

(** A variadic [params ...interface{}] arrives as a slice, the nil
    slice when no argument is given. *)
Definition variadic (params : list iface) : iface :=
  match params with
  | [] => Slice None
  | _ => Slice (Some params)
  end.

Definition WriteRequestArr (g : Gen) (c : Conn) (method : bytes) (params : list iface)
  : (bytes * option error) * Gen * Conn :=
  WriteRequest g c method (variadic params).

Definition WriteNotification (c : Conn) (method : bytes) (params : iface)
  : option error * Conn :=
  WriteMsg c (MNotification (mkNotification method params)).

Definition WriteNotificationArr (c : Conn) (method : bytes) (params : list iface)
  : option error * Conn :=
  WriteNotification c method (variadic params).

Definition WriteResponse (c : Conn) (id : bytes) (result : iface) (err : option ResError)
  : option error * Conn :=
  WriteMsg c (MResponse (mkResponse id result err)).

End Writing.

(** ** Vocabulary of the statements *)

(** A connection whose next [Read] returns [data]. *)
Definition conn_with (data : bytes) : Conn := mkConn [inr data] 0 [] [] 0.

Definition is_set {A : Type} (o : option A) : bool :=
  match o with
  | Some _ => true
  | None => false
  end.

(** How many of [req], [res], [not] are non-nil. *)
Definition set_count (r : ReadResult) : nat :=
  (if is_set (r_req r) then 1 else 0) + (if is_set (r_res r) then 1 else 0)
  + (if is_set (r_not r) then 1 else 0).

(** The effect of one call on the connection. *)
Definition one_read_no_write (c c' : Conn) : Prop :=
  reads c' = S (reads c) /\ incoming c' = tl (incoming c)
  /\ writes c' = writes c /\ sent c' = sent c /\ write_outcomes c' = write_outcomes c.

Definition at_most_one_write_no_read (c c' : Conn) : Prop :=
  (c' = c \/ (writes c' = S (writes c)
              /\ (sent c' = sent c \/ exists data, sent c' = sent c ++ [data])))
  /\ reads c' = reads c /\ incoming c' = incoming c.

(** Values all of whose strings and member names are valid UTF-8. *)
Fixpoint clean (v : json) : bool :=
  match v with
  | JStr s => utf8_valid s
  | JArr l => forallb clean l
  | JObj ms => forallb (fun kv => utf8_valid (fst kv) && clean (snd kv)) ms
  | _ => true
  end.

(** What may follow a value inside a document: nothing, a comma, or a
    closing bracket or brace. *)
Definition ends_value (rest : bytes) : bool :=
  match rest with
  | [] => true
  | x2c :: _ | x5d :: _ | x7d :: _ => true
  | _ => false
  end.

(** How deep arrays and objects nest in a value. *)
Fixpoint json_depth (v : json) : nat :=
  match v with
  | JArr l => S (fold_right (fun e a => Nat.max (json_depth e) a) 0%nat l)
  | JObj ms => S (fold_right (fun kv a => Nat.max (json_depth (snd kv)) a) 0%nat ms)
  | _ => 0%nat
  end.

(** Fuel that [parse_value] needs for the text of a value. *)
Fixpoint weight (v : json) : nat :=
  match v with
  | JArr l => S (fold_right (fun e a => S (weight e + a)) 0%nat l)
  | JObj ms => S (fold_right (fun kv a => S (weight (snd kv) + a)) 0%nat ms)
  | _ => 1%nat
  end.

(** What the main induction shows of one value. *)
Definition parses_back (v : json) : Prop :=
  clean v = true -> encodable v = true ->
  forall fuel d rest,
    (weight v <= fuel)%nat -> (json_depth v <= d)%nat -> ends_value rest = true ->
    parse_value fuel d (print v ++ rest) = Some (v, rest).

Definition elems_weight (l : list json) : nat :=
  fold_right (fun e a => S (weight e + a)) 0%nat l.

Definition elems_depth (l : list json) : nat :=
  fold_right (fun e a => Nat.max (json_depth e) a) 0%nat l.

Definition members_depth (ms : list (bytes * json)) : nat :=
  fold_right (fun kv a => Nat.max (json_depth (snd kv)) a) 0%nat ms.

Definition members_weight (ms : list (bytes * json)) : nat :=
  fold_right (fun kv a => S (weight (snd kv) + a)) 0%nat ms.

Definition print_member (kv : bytes * json) : bytes :=
  quote (fst kv) ++ x3a :: print (snd kv).

Definition clean_member (kv : bytes * json) : bool :=
  utf8_valid (fst kv) && clean (snd kv).




(** * Properties *)

(** ** Bytes *)

Lemma bytes_eqb_eq (a b : bytes) : bytes_eqb a b = true <-> a = b.
Proof.
  unfold bytes_eqb. destruct (list_eq_dec Byte.byte_eq_dec a b); split; congruence.
Qed.

Lemma code_lt (b : byte) : code b < 256.
Proof. unfold code. pose proof (Byte.to_N_bounded b). lia. Qed.

Lemma b8_code (b : byte) : b8 (code b) = b.
Proof.
  unfold b8, code. rewrite N.mod_small by apply code_lt.
  now rewrite Byte.of_to_N.
Qed.


(** ** The scanner on sample documents *)

Example parse_notify :
  parse (wire "{'method':'notify','params':[1,2,3]}")
  = Some (JObj [(str "method", JStr (str "notify"));
                (str "params", JArr [JNum (str "1"); JNum (str "2"); JNum (str "3")])]).
Proof. vm_compute. reflexivity. Qed.

Example parse_not_json : parse (str "not json") = None.
Proof. vm_compute. reflexivity. Qed.

Example parse_escapes :
  parse (wire " [ 'a\né😀' , -1.5e+3, true,null ] ")
  = Some (JArr [JStr [x61; x0a; xc3; xa9; xf0; x9f; x98; x80];
                JNum (str "-1.5e+3"); JBool true; JNull]).
Proof. vm_compute. reflexivity. Qed.

(** ** ReadMsg: which results are set *)

Lemma decodeMsg_success_one (data : bytes) (rd pd : iface) :
  r_err (decodeMsg data rd pd) = None -> set_count (decodeMsg data rd pd) = 1%nat.
Proof.
  unfold decodeMsg, set_count.
  destruct (unmarshal_message data) as [e|msg]; simpl; [discriminate|].
  destruct (is_empty (msg_ID msg)); simpl; [discriminate|].
  destruct (is_empty (msg_Method msg)); simpl.
  - destruct (msg_Result msg); [destruct (unmarshal_iface _ _)|]; simpl;
      try discriminate;
      destruct (msg_Error msg); try reflexivity;
      destruct (unmarshal_iface _ Nil); simpl; try discriminate; reflexivity.
  - destruct (unmarshal_iface _ _); simpl; [discriminate|reflexivity].
Qed.

(** C1, the code at a notification frame: [ReadMsg] sets [not] and returns
    the malformed-message error with it, so an error does not leave all
    three results unset. *)
Theorem ReadMsg_notification_sets_not_and_err :
  fst (ReadMsg (conn_with (wire "{'method':'notify','params':[1,2,3]}")) Nil Nil)
  = mkRead None None
           (Some (mkNotification (str "notify")
                    (RawMsg (Some (JArr [JNum (str "1"); JNum (str "2"); JNum (str "3")])))))
           (Some ErrMalformedMessage).
Proof. vm_compute. reflexivity. Qed.

(** C3, the code on every notification envelope: the branch that builds
    the Notification falls through to the malformed-message error. *)
Theorem decodeMsg_notification_falls_through
  (data : bytes) (msg : message) (rd pd : iface) :
  unmarshal_message data = inr msg ->
  msg_ID msg = [] ->
  msg_Method msg <> [] ->
  decodeMsg data rd pd
  = mkRead None None
           (Some (mkNotification (msg_Method msg) (RawMsg (msg_Params msg))))
           (Some ErrMalformedMessage).
Proof.
  intros Hm Hid Hmeth. unfold decodeMsg. rewrite Hm, Hid. simpl.
  destruct (msg_Method msg); [contradiction|reflexivity].
Qed.

Lemma decodeMsg_notification_falls_through_witness :
  decodeMsg (wire "{'method':'notify','params':[1,2,3]}") Nil Nil
  = mkRead None None
           (Some (mkNotification (str "notify")
                    (RawMsg (Some (JArr [JNum (str "1"); JNum (str "2"); JNum (str "3")])))))
           (Some ErrMalformedMessage).
Proof.
  apply (decodeMsg_notification_falls_through
           (wire "{'method':'notify','params':[1,2,3]}")
           (mkMessage [] (str "notify")
              (Some (JArr [JNum (str "1"); JNum (str "2"); JNum (str "3")])) None None)).
  - vm_compute. reflexivity.
  - reflexivity.
  - discriminate.
Defined.

(** C4, the code at an error response without data: the Response is
    built with code -32601 and nil data, and the decode of the absent
    data member is reported as an error. *)
Theorem decodeMsg_error_without_data :
  decodeMsg (wire "{'id':'7','error':{'code':-32601,'message':'method not found'}}") Nil Nil
  = mkRead None
           (Some (mkResponse (str "7") Nil
                    (Some (mkRE (-32601) (str "method not found") Nil))))
           None (Some ErrSyntax).
Proof. vm_compute. reflexivity. Qed.

(** C5, the code at a request without params: the decode of the absent
    params member is reported as an error and no Request is returned. *)
Theorem decodeMsg_request_without_params :
  decodeMsg (wire "{'id':'7','method':'ping'}") Nil Nil
  = mkRead None None None (Some ErrSyntax).
Proof. vm_compute. reflexivity. Qed.

(** ** ReadMsg: syntax errors and malformed messages *)

Lemma decodeMsg_syntax (data : bytes) (rd pd : iface) :
  parse data = None -> decodeMsg data rd pd = mkRead None None None (Some ErrSyntax).
Proof. intros H. unfold decodeMsg, unmarshal_message. now rewrite H. Qed.


(** ** ReadMsg: classification *)

Lemma target_kept (p : iface) : (if negb (is_nil p) then p else Nil) = p.
Proof. destruct p; reflexivity. Qed.

Lemma is_empty_false (s : bytes) : s <> [] -> is_empty s = false.
Proof. destruct s; [contradiction|reflexivity]. Qed.

Lemma response_branch (data : bytes) (msg : message) (rd pd : iface) :
  unmarshal_message data = inr msg ->
  msg_ID msg <> [] ->
  msg_Method msg = [] ->
  match (match msg_Result msg with
         | Some _ => unmarshal_iface (msg_Result msg) rd
         | None => inr rd
         end) with
  | inr v => exists resp, r_res (decodeMsg data rd pd) = Some resp
                          /\ res_ID resp = msg_ID msg /\ res_Result resp = v
  | inl e => decodeMsg data rd pd = mkRead None None None (Some e)
  end.
Proof.
  intros Hm Hid Hmeth. unfold decodeMsg. rewrite Hm.
  rewrite (is_empty_false _ Hid), Hmeth. simpl. rewrite !target_kept.
  destruct (msg_Result msg).
  - destruct (unmarshal_iface (Some j) rd); simpl; [reflexivity|].
    destruct (msg_Error msg); [destruct (unmarshal_iface _ Nil)|];
      eexists; split; try reflexivity; split; reflexivity.
  - destruct (msg_Error msg); [destruct (unmarshal_iface _ Nil)|];
      eexists; split; try reflexivity; split; reflexivity.
Qed.




(** ** ReadMsg: the result member *)

(** C7: in a response the result member is decoded into the caller's
    target only when it is present; when it is absent the target comes
    back as it was passed.  The sample frame gives Identifier 7, Result
    42 and no Error. *)
Theorem result_decoded_only_if_present
  (data : bytes) (msg : message) (rd pd : iface) :
  unmarshal_message data = inr msg ->
  msg_ID msg <> [] ->
  msg_Method msg = [] ->
  match msg_Result msg with
  | None =>
    exists resp, r_res (decodeMsg data rd pd) = Some resp
                 /\ res_ID resp = msg_ID msg /\ res_Result resp = rd
  | Some v =>
    match unmarshal_iface (Some v) rd with
    | inr x =>
      exists resp, r_res (decodeMsg data rd pd) = Some resp
                   /\ res_ID resp = msg_ID msg /\ res_Result resp = x
    | inl e => decodeMsg data rd pd = mkRead None None None (Some e)
    end
  end
  /\ decodeMsg (wire "{'id':'7','result':42}") Nil Nil
     = mkRead None (Some (mkResponse (str "7") (Generic (JNum (str "42"))) None))
              None None.
Proof.
  intros Hm Hid Hmeth. split; [|vm_compute; reflexivity].
  pose proof (response_branch data msg rd pd Hm Hid Hmeth) as H.
  destruct (msg_Result msg); exact H.
Qed.

Lemma result_decoded_only_if_present_witness :
  exists resp,
    r_res (decodeMsg (wire "{'id':'7'}") (Pointer TInt (JNum (str "5"))) Nil) = Some resp
    /\ res_ID resp = str "7" /\ res_Result resp = Pointer TInt (JNum (str "5")).
Proof.
  refine (proj1 (result_decoded_only_if_present
                   (wire "{'id':'7'}") (mkMessage (str "7") [] None None None)
                   (Pointer TInt (JNum (str "5"))) Nil _ _ _)).
  - vm_compute. reflexivity.
  - discriminate.
  - reflexivity.
Defined.

(** ** WriteRequest and the identifier generator *)

Lemma WriteMsg_ok (omitempty : bool) (c c' : Conn) (m : Msg) :
  WriteMsg omitempty c m = (None, c') ->
  exists data, Marshal omitempty m = inr data /\ sent c' = sent c ++ [data].
Proof.
  unfold WriteMsg. destruct (Marshal omitempty m) as [e|data]; [discriminate|].
  unfold conn_Write. destruct (write_outcomes c) as [|[e|] rest]; intros H;
    inversion H; subst; simpl; eauto.
Qed.

(** C9: [WriteRequest] asks the generator once, before anything is
    written.  When the generator fails its error is returned and the
    connection is untouched; when the call succeeds the frame written is
    the Request carrying the identifier that is returned. *)
Theorem WriteRequest_identifier
  (omitempty : bool) (g : Gen) (c : Conn) (method : bytes) (params : iface) :
  let '(id, err, g', c') := WriteRequest omitempty g c method params in
  g' = snd (GenID g)
  /\ gen_calls g' = S (gen_calls g)
  /\ match fst (GenID g) with
     | inl e => id = [] /\ err = Some e /\ c' = c
     | inr fresh =>
       id = fresh
       /\ match err with
          | None =>
            exists data,
              Marshal omitempty (MRequest (mkRequest id method params)) = inr data
              /\ sent c' = sent c ++ [data]
          | Some _ => True
          end
     end.
Proof.
  unfold WriteRequest.
  assert (Hc : gen_calls (snd (GenID g)) = S (gen_calls g)).
  { unfold GenID. destruct (gen_outcomes g); reflexivity. }
  destruct (GenID g) as [[e|id] g'] eqn:Hg; simpl in *.
  - repeat split; assumption.
  - destruct (WriteMsg omitempty c (MRequest (mkRequest id method params)))
      as [err c'] eqn:Hw.
    repeat split; try assumption.
    destruct err; [exact I|].
    now apply WriteMsg_ok in Hw.
Qed.

(** ** Reads and writes on the connection *)

Lemma WriteMsg_effect (omitempty : bool) (c : Conn) (m : Msg) :
  at_most_one_write_no_read c (snd (WriteMsg omitempty c m)).
Proof.
  unfold WriteMsg, at_most_one_write_no_read.
  destruct (Marshal omitempty m) as [e|data]; simpl; [auto|].
  unfold conn_Write. destruct (write_outcomes c) as [|[e|] rest]; simpl;
    repeat split; eauto.
Qed.

Lemma WriteRequest_effect
  (omitempty : bool) (g : Gen) (c : Conn) (method : bytes) (params : iface) :
  at_most_one_write_no_read c (snd (WriteRequest omitempty g c method params)).
Proof.
  unfold WriteRequest. destruct (GenID g) as [[e|id] g'].
  - simpl. unfold at_most_one_write_no_read. auto.
  - pose proof (WriteMsg_effect omitempty c (MRequest (mkRequest id method params))) as H.
    destruct (WriteMsg omitempty c _). exact H.
Qed.

(** C10: [ReadMsg] reads once and never writes, whatever the frame
    decodes to; every write operation writes at most once and leaves the
    read side as it was. *)
Theorem reads_and_writes (omitempty : bool) (g : Gen) (c : Conn) :
  (forall rd pd, one_read_no_write c (snd (ReadMsg c rd pd)))
  /\ (forall m, at_most_one_write_no_read c (snd (WriteMsg omitempty c m)))
  /\ (forall method params,
        at_most_one_write_no_read c (snd (WriteRequest omitempty g c method params)))
  /\ (forall method params,
        at_most_one_write_no_read c (snd (WriteRequestArr omitempty g c method params)))
  /\ (forall method params,
        at_most_one_write_no_read c (snd (WriteNotification omitempty c method params)))
  /\ (forall method params,
        at_most_one_write_no_read c (snd (WriteNotificationArr omitempty c method params)))
  /\ (forall id result err,
        at_most_one_write_no_read c (snd (WriteResponse omitempty c id result err))).
Proof.
  repeat split; intros;
    try apply WriteMsg_effect; try apply WriteRequest_effect;
    unfold ReadMsg, conn_Read; destruct (incoming c) as [|[e|d] rest]; reflexivity.
Qed.

(** ** UTF-8: encoding what was decoded *)

Ltac Zify.zify_post_hook ::= Z.div_mod_to_equations.

Lemma b8_eq (n : N) (b : byte) : n = code b -> b8 n = b.
Proof. intros ->. apply b8_code. Qed.

Ltac bools :=
  repeat match goal with
  | H : _ && _ = true |- _ => apply andb_prop in H; destruct H
  | H : (_ <? _) = true |- _ => apply N.ltb_lt in H
  | H : (_ <? _) = false |- _ => apply N.ltb_ge in H
  | H : (_ <=? _) = true |- _ => apply N.leb_le in H
  | H : (_ <=? _) = false |- _ => apply N.leb_gt in H
  | H : (_ =? _) = true |- _ => apply N.eqb_eq in H
  | H : (_ =? _) = false |- _ => apply N.eqb_neq in H
  end.

Ltac abstract_codes :=
  repeat match goal with
  | b : byte |- _ =>
    let c := fresh "c" in
    set (c := code b) in *; clearbody c; clear b
  end.

Ltac decide_tests :=
  repeat match goal with
  | |- context [?a <? ?b] => destruct (N.ltb_spec a b); try lia
  | |- context [?a <=? ?b] => destruct (N.leb_spec a b); try lia
  end; cbn [andb orb app].

Lemma utf8_encode_decode (s rest : bytes) (r : N) :
  utf8_decode s = Some (r, rest) -> utf8_encode r ++ rest = s.
Proof.
  destruct s as [|b0 t]; [discriminate|].
  unfold utf8_decode, is_cont.
  pose proof (code_lt b0).
  destruct (code b0 <? 0x80) eqn:E0.
  { intros H0; inversion H0; subst. unfold utf8_encode. rewrite E0.
    cbn [app]. now rewrite b8_code. }
  destruct (code b0 <? 0xC2) eqn:E1; [discriminate|].
  destruct (code b0 <? 0xE0) eqn:E2.
  { destruct t as [|b1 t1]; [discriminate|]. pose proof (code_lt b1).
    destruct ((128 <=? code b1) && (code b1 <=? 191)) eqn:E3; [|discriminate].
    intros H1; inversion H1; subst. clear H1. bools.
    unfold utf8_encode, is_surrogate. decide_tests.
    f_equal; [|f_equal]; apply b8_eq; abstract_codes; rewrite ?N.Div0.mod_eq; lia. }
  destruct (code b0 <? 0xF0) eqn:E3.
  { destruct t as [|b1 [|b2 t2]]; try discriminate.
    pose proof (code_lt b1). pose proof (code_lt b2).
    match goal with |- context [if ?c then Some _ else None] => destruct c eqn:E4 end;
      [|discriminate].
    intros Hdec; inversion Hdec; subst. clear Hdec. bools.
    destruct (code b0 =? 224) eqn:Ea; destruct (code b0 =? 237) eqn:Eb; bools; try lia;
    unfold utf8_encode, is_surrogate; decide_tests;
    (f_equal; [|f_equal; [|f_equal]]); apply b8_eq; abstract_codes; rewrite ?N.Div0.mod_eq; lia. }
  destruct (code b0 <? 0xF5) eqn:E4; [|discriminate].
  destruct t as [|b1 [|b2 [|b3 t3]]]; try discriminate.
  pose proof (code_lt b1). pose proof (code_lt b2). pose proof (code_lt b3).
  match goal with |- context [if ?c then Some _ else None] => destruct c eqn:E5 end;
    [|discriminate].
  intros Hdec; inversion Hdec; subst. clear Hdec. bools.
  destruct (code b0 =? 240) eqn:Ea; destruct (code b0 =? 244) eqn:Eb; bools; try lia;
    unfold utf8_encode, is_surrogate; decide_tests;
    (f_equal; [|f_equal; [|f_equal; [|f_equal]]]); apply b8_eq; abstract_codes; rewrite ?N.Div0.mod_eq; lia.
Qed.

Lemma utf8_decode_prefix (s rest : bytes) (r : N) :
  utf8_decode s = Some (r, rest) ->
  exists b0 p, s = b0 :: p ++ rest
               /\ forall Y, utf8_decode (b0 :: p ++ Y) = Some (r, Y).
Proof.
  destruct s as [|b0 t]; [discriminate|].
  unfold utf8_decode.
  destruct (code b0 <? 0x80) eqn:E0.
  { intros H; inversion H; subst. exists b0, []. split; [reflexivity|].
    intros Y. cbn [app]. now rewrite E0. }
  destruct (code b0 <? 0xC2) eqn:E1; [discriminate|].
  destruct (code b0 <? 0xE0) eqn:E2.
  { destruct t as [|b1 t1]; [discriminate|].
    destruct (is_cont b1) eqn:E3; [|discriminate].
    intros H; inversion H; subst. exists b0, [b1]. split; [reflexivity|].
    intros Y. cbn [app]. now rewrite E0, E1, E2, E3. }
  destruct (code b0 <? 0xF0) eqn:E3.
  { destruct t as [|b1 [|b2 t2]]; try discriminate.
    match goal with |- context [if ?c then Some _ else None] => destruct c eqn:E4 end;
      [|discriminate].
    intros H; inversion H; subst. exists b0, [b1; b2]. split; [reflexivity|].
    intros Y. cbn [app]. now rewrite E0, E1, E2, E3, E4. }
  destruct (code b0 <? 0xF5) eqn:E4; [|discriminate].
  destruct t as [|b1 [|b2 [|b3 t3]]]; try discriminate.
  match goal with |- context [if ?c then Some _ else None] => destruct c eqn:E5 end;
    [|discriminate].
  intros H; inversion H; subst. exists b0, [b1; b2; b3]. split; [reflexivity|].
  intros Y. cbn [app]. now rewrite E0, E1, E2, E3, E4, E5.
Qed.

(** ** Strings: unquoting what was quoted *)

Lemma unquote_ascii (b : byte) (f : nat) (X : bytes) :
  (code b <? 0x80) = true ->
  unquote (S f) ((if html_safe b then [b] else escape_ascii b) ++ X)
  = prepend [b] (unquote f X).
Proof. destruct b; intros H; try discriminate H; reflexivity. Qed.

Lemma unquote_high (b : byte) (f : nat) (T : bytes) :
  (code b <? 0x80) = false ->
  unquote (S f) (b :: T)
  = match utf8_decode (b :: T) with
    | Some (r, rest') => prepend (utf8_encode r) (unquote f rest')
    | None => prepend (utf8_encode RuneError) (unquote f T)
    end.
Proof. destruct b; intros H; try discriminate H; reflexivity. Qed.

Lemma fragment_nonempty (b : byte) :
  (0 < List.length (if html_safe b then [b] else escape_ascii b))%nat.
Proof. destruct (html_safe b); [simpl; lia|]. destruct b; simpl; lia. Qed.

Lemma unquote_escape (n : nat) :
  forall s, utf8_valid_fuel n s = true ->
  forall m f X, (List.length s <= m)%nat -> (List.length (escape m s) < f)%nat ->
  unquote f (escape m s ++ x22 :: X) = Some (s, X).
Proof.
  induction n as [|n IH]; intros s Hv m f X Hm Hf; [discriminate|].
  destruct s as [|b t].
  { destruct m; destruct f; simpl in *; try lia; reflexivity. }
  cbn [utf8_valid_fuel] in Hv.
  destruct (utf8_decode (b :: t)) as [[r rest']|] eqn:Hd; [|discriminate].
  destruct m as [|m]; [simpl in Hm; lia|].
  cbn [escape] in *.
  destruct (code b <? 0x80) eqn:Hb.
  - assert (rest' = t) as ->.
    { unfold utf8_decode in Hd. rewrite Hb in Hd. now inversion Hd. }
    pose proof (fragment_nonempty b) as Hne.
    rewrite length_app in Hf.
    destruct f as [|f]; [lia|].
    rewrite <- app_assoc, unquote_ascii by exact Hb.
    rewrite (IH t Hv m f X); [reflexivity| simpl in Hm; lia | lia].
  - rewrite Hd in *.
    pose proof (utf8_encode_decode _ _ _ Hd) as Henc.
    destruct (utf8_decode_prefix _ _ _ Hd) as (b0 & p & Hs & Hp).
    assert (Hlen : (List.length rest' <= m)%nat).
    { rewrite Hs in Hm. simpl in Hm. rewrite length_app in Hm. lia. }
    assert (Hpe : utf8_encode r = b0 :: p).
    { apply (app_inv_tail rest'). rewrite Henc, Hs. reflexivity. }
    inversion Hs; subst b0.
    destruct f as [|f]; [lia|].
    destruct (r =? 0x2028) eqn:E1; [|destruct (r =? 0x2029) eqn:E2].
    + apply N.eqb_eq in E1. subst r.
      cbn [app] in *. 
      change (unquote (S f) (x5c :: x75 :: x32 :: x30 :: x32 :: x38 :: escape m rest' ++ x22 :: X))
        with (prepend (utf8_encode 0x2028) (unquote f (escape m rest' ++ x22 :: X))).
      rewrite (IH rest' Hv m f X Hlen) by (simpl in Hf; lia).
      cbn [prepend]. rewrite Hpe. reflexivity.
    + apply N.eqb_eq in E2. subst r.
      cbn [app] in *.
      change (unquote (S f) (x5c :: x75 :: x32 :: x30 :: x32 :: x39 :: escape m rest' ++ x22 :: X))
        with (prepend (utf8_encode 0x2029) (unquote f (escape m rest' ++ x22 :: X))).
      rewrite (IH rest' Hv m f X Hlen) by (simpl in Hf; lia).
      cbn [prepend]. rewrite Hpe. reflexivity.
    + rewrite Hpe in *. rewrite <- app_assoc. cbn [app].
      rewrite unquote_high by exact Hb.
      rewrite Hp.
      rewrite (IH rest' Hv m f X Hlen).
      * cbn [prepend]. rewrite Hpe. reflexivity.
      * rewrite length_app in Hf. simpl in Hf. lia.
Qed.

(** ** Numbers: scanning a valid lexeme *)

Lemma ends_value_cases (rest : bytes) :
  ends_value rest = true ->
  rest = [] \/ exists t, rest = x2c :: t \/ rest = x5d :: t \/ rest = x7d :: t.
Proof.
  destruct rest as [|b t]; [now left|]. right. exists t.
  destruct b; try discriminate; auto.
Qed.

Lemma span_digits_split (s : bytes) :
  forall ds r, span_digits s = (ds, r) -> s = ds ++ r.
Proof.
  induction s as [|b t IH]; intros ds r H; simpl in H.
  - now inversion H.
  - destruct (is_digit b).
    + destruct (span_digits t) as [ds' r'] eqn:E. inversion H; subst.
      simpl. f_equal. now apply IH.
    + now inversion H.
Qed.

Lemma span_digits_app (s rest : bytes) :
  ends_value rest = true ->
  forall ds r, span_digits s = (ds, r) -> span_digits (s ++ rest) = (ds, r ++ rest).
Proof.
  intros He. induction s as [|b t IH]; intros ds r H; simpl in H.
  - inversion H; subst. simpl.
    destruct (ends_value_cases _ He) as [->|(u & [-> | [-> | ->]])]; reflexivity.
  - simpl. destruct (is_digit b).
    + destruct (span_digits t) as [ds' r'] eqn:E. inversion H; subst.
      now rewrite (IH ds' r).
    + now inversion H.
Qed.

Lemma scan_int_split (s l r : bytes) : scan_int s = Some (l, r) -> s = l ++ r.
Proof.
  destruct s as [|d t]; [discriminate|].
  unfold scan_int. destruct (span_digits t) as [ds r'] eqn:E.
  apply span_digits_split in E. subst t.
  destruct d; simpl; intros H; inversion H; subst; reflexivity.
Qed.

Lemma scan_int_app (s rest l r : bytes) :
  ends_value rest = true ->
  scan_int s = Some (l, r) -> scan_int (s ++ rest) = Some (l, r ++ rest).
Proof.
  intros He. destruct s as [|d t]; [discriminate|].
  unfold scan_int. cbn [app].
  destruct (span_digits t) as [ds r'] eqn:E.
  rewrite (span_digits_app _ _ He _ _ E).
  destruct d; simpl; intros H; inversion H; subst; reflexivity.
Qed.

Lemma scan_frac_split (s l r : bytes) : scan_frac s = Some (l, r) -> s = l ++ r.
Proof.
  destruct s as [|d t]; [intros H; now inversion H|].
  unfold scan_frac. destruct (span_digits t) as [ds r'] eqn:E.
  apply span_digits_split in E. subst t.
  destruct d; try (intros H; inversion H; subst; reflexivity).
  destruct ds; intros H; inversion H; subst; reflexivity.
Qed.

Lemma scan_frac_app (s rest l r : bytes) :
  ends_value rest = true ->
  scan_frac s = Some (l, r) -> scan_frac (s ++ rest) = Some (l, r ++ rest).
Proof.
  intros He. destruct s as [|d t].
  - intros H; inversion H; subst. simpl.
    destruct (ends_value_cases _ He) as [->|(u & [-> | [-> | ->]])]; reflexivity.
  - unfold scan_frac. cbn [app].
    destruct (span_digits t) as [ds r'] eqn:E.
    rewrite (span_digits_app _ _ He _ _ E).
    destruct d; try (intros H; inversion H; subst; reflexivity).
    destruct ds; intros H; inversion H; subst; reflexivity.
Qed.

Lemma scan_exp_split (s l r : bytes) : scan_exp s = Some (l, r) -> s = l ++ r.
Proof.
  destruct s as [|e t]; [intros H; now inversion H|].
  unfold scan_exp.
  destruct (Byte.eqb e x65 || Byte.eqb e x45); [|intros H; now inversion H].
  destruct t as [|c u]; [simpl; discriminate|].
  destruct (span_digits u) as [ds1 r1] eqn:E1.
  pose proof (span_digits_split _ _ _ E1) as S1.
  destruct (span_digits (c :: u)) as [ds2 r2] eqn:E2.
  pose proof (span_digits_split _ _ _ E2) as S2.
  destruct c; rewrite ?E1, ?E2;
    intros H;
    try (destruct ds2; [discriminate H|];
         injection H as <- <-; cbn [app]; rewrite S2; reflexivity);
    (destruct ds1; [discriminate H|]);
    injection H as <- <-; cbn [app]; rewrite S1; reflexivity.
Qed.

Lemma scan_exp_app (s rest l r : bytes) :
  ends_value rest = true ->
  scan_exp s = Some (l, r) -> scan_exp (s ++ rest) = Some (l, r ++ rest).
Proof.
  intros He. destruct s as [|e t].
  - intros H; inversion H; subst. simpl.
    destruct (ends_value_cases _ He) as [->|(u & [-> | [-> | ->]])]; reflexivity.
  - unfold scan_exp. cbn [app].
    destruct (Byte.eqb e x65 || Byte.eqb e x45); [|intros H; now inversion H].
    destruct t as [|c u]; [simpl; discriminate|].
    destruct (span_digits u) as [ds1 r1] eqn:E1.
    pose proof (span_digits_app _ _ He _ _ E1) as S1.
    destruct (span_digits (c :: u)) as [ds2 r2] eqn:E2.
    pose proof (span_digits_app _ _ He _ _ E2) as S2.
    cbn [app] in *.
    destruct c; rewrite ?E1, ?E2, ?S1, ?S2;
      intros H;
      try (destruct ds2; [discriminate H|]; injection H as <- <-; reflexivity);
      (destruct ds1; [discriminate H|]); injection H as <- <-; reflexivity.
Qed.

Lemma scan_number_split (s l r : bytes) : scan_number s = Some (l, r) -> s = l ++ r.
Proof.
  unfold scan_number.
  assert (K : forall sg s1, match scan_int s1 with
              | None => None
              | Some (i, s2) =>
                match scan_frac s2 with
                | None => None
                | Some (f, s3) =>
                  match scan_exp s3 with
                  | None => None
                  | Some (e, s4) => Some (sg ++ i ++ f ++ e, s4)
                  end
                end
              end = Some (l, r) -> sg ++ s1 = l ++ r).
  { intros sg s1.
    destruct (scan_int s1) as [[i s2]|] eqn:Ei; [|discriminate].
    destruct (scan_frac s2) as [[f s3]|] eqn:Ef; [|discriminate].
    destruct (scan_exp s3) as [[e s4]|] eqn:Ee; [|discriminate].
    intros H; injection H as <- <-.
    apply scan_int_split in Ei. apply scan_frac_split in Ef. apply scan_exp_split in Ee.
    subst. now rewrite <- !app_assoc. }
  destruct s as [|b t]; [apply (K [] [])|].
  destruct b; try apply (K [] (_ :: t)).
  apply (K [x2d] t).
Qed.

Lemma scan_number_app (s rest l r : bytes) :
  ends_value rest = true ->
  scan_number s = Some (l, r) -> scan_number (s ++ rest) = Some (l, r ++ rest).
Proof.
  intros He. unfold scan_number.
  assert (K : forall sg s1, match scan_int s1 with
              | None => None
              | Some (i, s2) =>
                match scan_frac s2 with
                | None => None
                | Some (f, s3) =>
                  match scan_exp s3 with
                  | None => None
                  | Some (e, s4) => Some (sg ++ i ++ f ++ e, s4)
                  end
                end
              end = Some (l, r) ->
              match scan_int (s1 ++ rest) with
              | None => None
              | Some (i, s2) =>
                match scan_frac s2 with
                | None => None
                | Some (f, s3) =>
                  match scan_exp s3 with
                  | None => None
                  | Some (e, s4) => Some (sg ++ i ++ f ++ e, s4)
                  end
                end
              end = Some (l, r ++ rest)).
  { intros sg s1.
    destruct (scan_int s1) as [[i s2]|] eqn:Ei; [|discriminate].
    destruct (scan_frac s2) as [[f s3]|] eqn:Ef; [|discriminate].
    destruct (scan_exp s3) as [[e s4]|] eqn:Ee; [|discriminate].
    intros H; injection H as <- <-.
    rewrite (scan_int_app _ _ _ _ He Ei), (scan_frac_app _ _ _ _ He Ef),
      (scan_exp_app _ _ _ _ He Ee). reflexivity. }
  destruct s as [|b t]; [discriminate|].
  cbn [app]. destruct b; try apply (K [] (_ :: t)).
  apply (K [x2d] t).
Qed.

Lemma valid_number_scan (lx rest : bytes) :
  valid_number lx = true -> ends_value rest = true ->
  scan_number (lx ++ rest) = Some (lx, rest).
Proof.
  unfold valid_number. intros Hv He.
  destruct (scan_number lx) as [[l r]|] eqn:E; [|discriminate].
  destruct r; [|discriminate].
  pose proof (scan_number_split _ _ _ E) as Hs. rewrite app_nil_r in Hs. subst l.
  now rewrite (scan_number_app _ _ _ _ He E).
Qed.

Lemma parse_number (lx rest : bytes) (f d : nat) :
  valid_number lx = true -> ends_value rest = true ->
  parse_value (S f) d (lx ++ rest) = Some (JNum lx, rest).
Proof.
  intros Hv He. pose proof (valid_number_scan lx rest Hv He) as Hs.
  destruct lx as [|b t]; [discriminate|].
  cbn [app] in *.
  destruct b; try (exfalso; vm_compute in Hv; discriminate Hv);
    cbn [parse_value skip_ws is_ws]; rewrite Hs; reflexivity.
Qed.

(** ** Values: parsing what was printed *)

Lemma json_induction (P : json -> Prop) :
  P JNull -> (forall b, P (JBool b)) -> (forall lx, P (JNum lx)) -> (forall s, P (JStr s)) ->
  (forall l, Forall P l -> P (JArr l)) ->
  (forall ms, Forall (fun kv => P (snd kv)) ms -> P (JObj ms)) ->
  forall v, P v.
Proof.
  intros Hn Hb Hnum Hs Ha Ho.
  fix IH 1. intros [| b | lx | s | l | ms].
  - exact Hn.
  - apply Hb.
  - apply Hnum.
  - apply Hs.
  - apply Ha. induction l as [|e l IHl]; constructor; [apply IH | exact IHl].
  - apply Ho. induction ms as [|[k e] ms IHms]; constructor; [apply IH | exact IHms].
Qed.

Lemma unquote_quoted (s X : bytes) :
  utf8_valid s = true ->
  unquote (S (List.length (escape (List.length s) s ++ x22 :: X)))
          (escape (List.length s) s ++ x22 :: X) = Some (s, X).
Proof.
  intros Hv. apply (unquote_escape (S (List.length s)) s Hv); [lia|].
  rewrite length_app. simpl. lia.
Qed.

Lemma quote_app (s rest : bytes) :
  quote s ++ rest = x22 :: escape (List.length s) s ++ x22 :: rest.
Proof. unfold quote. cbn [app]. now rewrite <- app_assoc. Qed.

Lemma parse_string_unfold (f d : nat) (T : bytes) :
  parse_value (S f) d (x22 :: T)
  = match unquote (S (List.length T)) T with
    | Some (str, r) => Some (JStr str, r)
    | None => None
    end.
Proof. reflexivity. Qed.

Lemma parse_string (s rest : bytes) (f d : nat) :
  utf8_valid s = true ->
  parse_value (S f) d (quote s ++ rest) = Some (JStr s, rest).
Proof.
  intros Hv. rewrite quote_app, parse_string_unfold, unquote_quoted by exact Hv.
  reflexivity.
Qed.

Lemma print_head (v : json) :
  encodable v = true ->
  exists b t, print v = b :: t /\ is_ws b = false /\ Byte.eqb b x5d = false.
Proof.
  destruct v as [| [|] | lx | s | l | ms]; intros He;
    try (eexists; eexists; split; [reflexivity|split; reflexivity]).
  cbn [encodable print] in *.
  destruct lx as [|b t]; [discriminate|].
  exists b, t. split; [reflexivity|].
  destruct b; try (exfalso; vm_compute in He; discriminate He); split; reflexivity.
Qed.

Lemma array_dispatch (f d : nat) (b : byte) (T : bytes) :
  is_ws b = false -> Byte.eqb b x5d = false ->
  parse_value (S f) (S d) (x5b :: b :: T)
  = match parse_elems f d (b :: T) with
    | Some (vs, r) => Some (JArr vs, r)
    | None => None
    end.
Proof. destruct b; intros H1 H2; try discriminate; reflexivity. Qed.

Lemma object_dispatch (f d : nat) (T : bytes) :
  parse_value (S f) (S d) (x7b :: x22 :: T)
  = match parse_members f d (x22 :: T) with
    | Some (ms, r) => Some (JObj ms, r)
    | None => None
    end.
Proof. reflexivity. Qed.

Lemma parse_elems_unfold (f d : nat) (s : bytes) :
  parse_elems (S f) d s
  = match parse_value f d s with
    | Some (v, r) =>
      match skip_ws r with
      | x2c :: r' =>
        match parse_elems f d r' with
        | Some (vs, r'') => Some (v :: vs, r'')
        | None => None
        end
      | x5d :: r' => Some ([v], r')
      | _ => None
      end
    | None => None
    end.
Proof. reflexivity. Qed.

Lemma parse_members_unfold (f d : nat) (T : bytes) :
  parse_members (S f) d (x22 :: T)
  = match unquote (S (List.length T)) T with
    | Some (k, r) =>
      match skip_ws r with
      | x3a :: r1 =>
        match parse_value f d r1 with
        | Some (v, r2) =>
          match skip_ws r2 with
          | x2c :: r3 =>
            match parse_members f d r3 with
            | Some (ms, r4) => Some ((k, v) :: ms, r4)
            | None => None
            end
          | x7d :: r3 => Some ([(k, v)], r3)
          | _ => None
          end
        | None => None
        end
      | _ => None
      end
    | None => None
    end.
Proof. reflexivity. Qed.

Lemma parse_elems_print (e : json) (es : list json) :
  Forall parses_back (e :: es) ->
  forallb clean (e :: es) = true -> forallb encodable (e :: es) = true ->
  forall fuel d rest,
    (elems_weight (e :: es) <= fuel)%nat -> (elems_depth (e :: es) <= d)%nat ->
    parse_elems fuel d (join (map print (e :: es)) ++ x5d :: rest) = Some (e :: es, rest).
Proof.
  revert e. induction es as [|e2 es IH]; intros e HP Hc He fuel d rest Hf Hd.
  - inversion HP as [|? ? Pe _]; subst.
    cbn [forallb] in Hc, He. rewrite andb_true_r in Hc, He.
    cbn [elems_weight elems_depth fold_right] in Hf, Hd.
    destruct fuel as [|f]; [lia|].
    rewrite parse_elems_unfold. cbn [map join].
    rewrite (Pe Hc He f d (x5d :: rest)) by (try reflexivity; lia).
    reflexivity.
  - inversion HP as [|? ? Pe HP']; subst.
    cbn [forallb] in Hc, He.
    apply andb_prop in Hc. destruct Hc as [Hc Hc'].
    apply andb_prop in He. destruct He as [He He'].
    change (elems_weight (e :: e2 :: es))
      with (S (weight e + elems_weight (e2 :: es))) in Hf.
    change (elems_depth (e :: e2 :: es))
      with (Nat.max (json_depth e) (elems_depth (e2 :: es))) in Hd.
    destruct fuel as [|f]; [lia|].
    rewrite parse_elems_unfold.
    change (join (map print (e :: e2 :: es)))
      with (print e ++ x2c :: join (map print (e2 :: es))).
    rewrite <- app_assoc. cbn [app].
    rewrite (Pe Hc He f d) by (try reflexivity; lia).
    cbn [skip_ws is_ws].
    rewrite (IH e2 HP' Hc' He' f d rest) by lia.
    reflexivity.
Qed.

Lemma parse_members_print (m : bytes * json) (ms : list (bytes * json)) :
  Forall (fun kv => parses_back (snd kv)) (m :: ms) ->
  forallb clean_member (m :: ms) = true ->
  forallb (fun kv => encodable (snd kv)) (m :: ms) = true ->
  forall fuel d rest,
    (members_weight (m :: ms) <= fuel)%nat -> (members_depth (m :: ms) <= d)%nat ->
    parse_members fuel d (join (map print_member (m :: ms)) ++ x7d :: rest)
    = Some (m :: ms, rest).
Proof.
  revert m. induction ms as [|m2 ms IH]; intros [k v] HP Hc He fuel d rest Hf Hd.
  - inversion HP as [|? ? Pe _]; subst. cbn [snd] in Pe.
    cbn [forallb] in Hc, He. rewrite andb_true_r in Hc, He.
    unfold clean_member in Hc. cbn [fst snd] in Hc, He.
    apply andb_prop in Hc. destruct Hc as [Hk Hc].
    cbn [members_weight members_depth fold_right snd] in Hf, Hd.
    destruct fuel as [|f]; [lia|].
    cbn [map join]. unfold print_member. cbn [fst snd].
    rewrite <- app_assoc, quote_app, parse_members_unfold.
    rewrite unquote_quoted by exact Hk.
    cbn [app skip_ws is_ws].
    rewrite (Pe Hc He f d (x7d :: rest)) by (try reflexivity; lia).
    reflexivity.
  - inversion HP as [|? ? Pe HP']; subst. cbn [snd] in Pe.
    cbn [forallb] in Hc, He.
    apply andb_prop in Hc. destruct Hc as [Hc Hc'].
    apply andb_prop in He. destruct He as [He He'].
    unfold clean_member in Hc. cbn [fst snd] in Hc, He.
    apply andb_prop in Hc. destruct Hc as [Hk Hc].
    change (members_weight ((k, v) :: m2 :: ms))
      with (S (weight v + members_weight (m2 :: ms))) in Hf.
    change (members_depth ((k, v) :: m2 :: ms))
      with (Nat.max (json_depth v) (members_depth (m2 :: ms))) in Hd.
    destruct fuel as [|f]; [lia|].
    change (join (map print_member ((k, v) :: m2 :: ms)))
      with (print_member (k, v) ++ x2c :: join (map print_member (m2 :: ms))).
    unfold print_member at 1. cbn [fst snd].
    rewrite <- !app_assoc, quote_app, parse_members_unfold.
    rewrite unquote_quoted by exact Hk.
    cbn [app skip_ws is_ws].
    rewrite (Pe Hc He f d) by (try reflexivity; lia).
    cbn [skip_ws is_ws].
    rewrite (IH m2 HP' Hc' He' f d rest) by lia.
    reflexivity.
Qed.

Lemma print_obj (ms : list (bytes * json)) :
  print (JObj ms) = x7b :: join (map print_member ms) ++ [x7d].
Proof. reflexivity. Qed.

Lemma parse_value_print (v : json) : parses_back v.
Proof.
  induction v as [| b | lx | s | l IHl | ms IHms] using json_induction;
    intros Hc He fuel d rest Hf Hd Hr;
    (destruct fuel as [|f]; [cbn [weight] in Hf; lia|]).
  - reflexivity.
  - destruct b; reflexivity.
  - apply parse_number; assumption.
  - apply parse_string. exact Hc.
  - cbn [json_depth] in Hd. fold (elems_depth l) in Hd.
    destruct d as [|d]; [lia|].
    cbn [print]. cbn [app]. rewrite <- app_assoc. cbn [app].
    destruct l as [|e es]; [reflexivity|].
    cbn [clean encodable] in Hc, He.
    assert (Hh : encodable e = true).
    { cbn [forallb] in He. now apply andb_prop in He. }
    destruct (print_head e Hh) as (b & t & Hp & Hw & Hb).
    assert (Hj : exists T, join (map print (e :: es)) ++ x5d :: rest = b :: T).
    { destruct es; cbn [map join]; rewrite Hp; [|rewrite <- app_assoc]; cbn [app]; eauto. }
    destruct Hj as [T Hj].
    rewrite Hj, array_dispatch by assumption. rewrite <- Hj.
    rewrite (parse_elems_print e es IHl Hc He f d rest); [reflexivity| |lia].
    cbn [weight] in Hf. unfold elems_weight. lia.
  - cbn [json_depth] in Hd. fold (members_depth ms) in Hd.
    destruct d as [|d]; [lia|].
    rewrite print_obj. cbn [app]. rewrite <- app_assoc. cbn [app].
    destruct ms as [|m ms']; [reflexivity|].
    cbn [clean encodable] in Hc, He.
    assert (Hj : exists T, join (map print_member (m :: ms')) ++ x7d :: rest = x22 :: T).
    { destruct m as [k v]. destruct ms'; cbn [map join]; unfold print_member at 1;
        cbn [fst snd]; rewrite <- !app_assoc, quote_app; eauto. }
    destruct Hj as [T Hj].
    rewrite Hj, object_dispatch. rewrite <- Hj.
    rewrite (parse_members_print m ms' IHms Hc He f d rest); [reflexivity| |lia].
    cbn [weight] in Hf. unfold members_weight. lia.
Qed.

(** ** Fuel: the scan of a printed document has enough *)

Lemma join_length_elems (l : list json) :
  Forall (fun e => encodable e = true -> (weight e <= 2 * List.length (print e))%nat) l ->
  forallb encodable l = true ->
  (elems_weight l <= 2 * List.length (join (map print l)) + 2)%nat.
Proof.
  induction l as [|e es IH]; intros HP He; [simpl; lia|].
  inversion HP as [|? ? Pe HP']; subst.
  cbn [forallb] in He. apply andb_prop in He. destruct He as [He He'].
  specialize (Pe He). specialize (IH HP' He').
  change (elems_weight (e :: es)) with (S (weight e + elems_weight es)).
  destruct es as [|e2 es'].
  - cbn [map join]. cbn [elems_weight fold_right]. lia.
  - change (join (map print (e :: e2 :: es')))
      with (print e ++ x2c :: join (map print (e2 :: es'))).
    rewrite length_app. cbn [List.length]. lia.
Qed.

Lemma join_length_members (ms : list (bytes * json)) :
  Forall (fun kv => encodable (snd kv) = true ->
                    (weight (snd kv) <= 2 * List.length (print (snd kv)))%nat) ms ->
  forallb (fun kv => encodable (snd kv)) ms = true ->
  (members_weight ms <= 2 * List.length (join (map print_member ms)) + 2)%nat.
Proof.
  induction ms as [|[k v] ms IH]; intros HP He; [simpl; lia|].
  inversion HP as [|? ? Pe HP']; subst. cbn [snd] in Pe.
  cbn [forallb snd] in He. apply andb_prop in He. destruct He as [He He'].
  specialize (Pe He). specialize (IH HP' He').
  change (members_weight ((k, v) :: ms)) with (S (weight v + members_weight ms)).
  assert (Hm : (List.length (print v) <= List.length (print_member (k, v)))%nat).
  { unfold print_member. cbn [fst snd]. rewrite length_app. cbn [List.length]. lia. }
  destruct ms as [|m2 ms'].
  - cbn [map join]. cbn [members_weight fold_right]. lia.
  - change (join (map print_member ((k, v) :: m2 :: ms')))
      with (print_member (k, v) ++ x2c :: join (map print_member (m2 :: ms'))).
    rewrite length_app. cbn [List.length]. lia.
Qed.

Lemma weight_bound (v : json) :
  encodable v = true -> (weight v <= 2 * List.length (print v))%nat.
Proof.
  induction v as [| b | lx | s | l IHl | ms IHms] using json_induction; intros He.
  - simpl. lia.
  - destruct b; simpl; lia.
  - cbn [encodable print weight] in *. destruct lx; [discriminate|]. simpl. lia.
  - cbn [print weight]. unfold quote. cbn [List.length]. lia.
  - cbn [encodable] in He. pose proof (join_length_elems l IHl He) as H.
    cbn [print weight]. fold (elems_weight l).
    cbn [List.length]. rewrite length_app. cbn [List.length]. lia.
  - cbn [encodable] in He. pose proof (join_length_members ms IHms He) as H.
    rewrite print_obj. cbn [weight]. fold (members_weight ms).
    cbn [List.length]. rewrite length_app. cbn [List.length]. lia.
Qed.

Lemma parse_print (v : json) :
  clean v = true -> encodable v = true -> (json_depth v <= maxNestingDepth)%nat ->
  parse (print v) = Some v.
Proof.
  intros Hc He Hd. unfold parse.
  pose proof (weight_bound v He) as Hw.
  pose proof (parse_value_print v Hc He (2 * List.length (print v) + 2)%nat
                maxNestingDepth []) as H.
  rewrite app_nil_r in H. rewrite H by (try reflexivity; lia).
  reflexivity.
Qed.

(** ** Requests: decoding what was encoded *)

Lemma sequence_encodable (l : list (option json)) (vs : list json) :
  Forall (fun o => forall v, o = Some v -> encodable v = true) l ->
  sequence l = Some vs -> forallb encodable vs = true.
Proof.
  revert vs. induction l as [|[a|] l IH]; intros vs HP H; simpl in H.
  - now inversion H.
  - inversion HP as [|? ? Pa HP']; subst.
    destruct (sequence l) as [r|]; [|discriminate]. inversion H; subst.
    simpl. rewrite (Pa a eq_refl). now apply IH.
  - discriminate.
Qed.

Lemma iface_induction (P : iface -> Prop) :
  P Nil -> (forall v, P (Generic v)) -> (forall t c, P (Pointer t c)) ->
  (forall r, P (RawMsg r)) -> P (Slice None) ->
  (forall l, Forall P l -> P (Slice (Some l))) -> P Unsupported ->
  forall i, P i.
Proof.
  intros Hn Hg Hp Hr Hsn Hs Hu. fix IH 1. intros [| v | t c | r | [l|] |].
  - exact Hn.
  - apply Hg.
  - apply Hp.
  - apply Hr.
  - apply Hs. induction l as [|e l IHl]; constructor; [apply IH | exact IHl].
  - exact Hsn.
  - exact Hu.
Qed.

Lemma checked_encodable (c v : json) : checked c = Some v -> encodable v = true.
Proof. unfold checked. destruct (encodable c) eqn:E; intros H; inversion H; now subst. Qed.

Lemma image_encodable (i : iface) : forall v, image i = Some v -> encodable v = true.
Proof.
  induction i as [| c | t c | r | | l IH |] using iface_induction; intros v H.
  - now inversion H.
  - now apply checked_encodable in H.
  - now apply checked_encodable in H.
  - destruct r as [c|]; [now apply checked_encodable in H | now inversion H].
  - now inversion H.
  - cbn [image] in H. destruct (sequence (map image l)) as [vs|] eqn:E; [|discriminate].
    inversion H; subst. cbn [encodable].
    apply (sequence_encodable (map image l)); [|exact E].
    apply Forall_map. exact IH.
  - discriminate.
Qed.






(** * Further properties of the client *)

(** ** ReadMsg: which errors, and when *)

Lemma unmarshal_iface_error (raw : RawMessage) (p : iface) (e : error) :
  unmarshal_iface raw p = inl e ->
  (raw = None /\ e = ErrSyntax) \/ (raw <> None /\ e = ErrUnmarshalType).
Proof.
  unfold unmarshal_iface. destruct raw as [v|]; [|intros H; inversion H; auto].
  intros H. right. split; [discriminate|].
  destruct v; try discriminate H;
    destruct p as [| ? | t c | ? | ? |];
    repeat match type of H with
           | context [if ?b then _ else _] => destruct b
           | context [match store ?t ?c ?v with _ => _ end] => destruct (store t c v)
           end;
    inversion H; reflexivity.
Qed.

Lemma unmarshal_message_error (data : bytes) (e : error) :
  unmarshal_message data = inl e ->
  (parse data = None /\ e = ErrSyntax) \/ (parse data <> None /\ e = ErrUnmarshalType).
Proof.
  unfold unmarshal_message. destruct (parse data) as [v|]; [|intros H; inversion H; auto].
  intros H. right. split; [discriminate|].
  destruct v; try (inversion H; reflexivity); try discriminate H.
  destruct (fold_left message_member members (Some zero_message)); inversion H; reflexivity.
Qed.

Ltac branch_cases msg rd pd :=
  destruct (is_empty (msg_ID msg)) eqn:?; cbn [negb];
  [|destruct (is_empty (msg_Method msg)) eqn:?; cbn [negb];
    [destruct (msg_Result msg) as [?|] eqn:?;
       [destruct (unmarshal_iface (Some _) _) as [?|?] eqn:?|];
       try (destruct (msg_Error msg) as [?|] eqn:?;
            [destruct (unmarshal_iface (re_Data _) Nil) as [?|?] eqn:?|])
    |destruct (unmarshal_iface (msg_Params msg) _) as [?|?] eqn:?]].

(** X1: whenever [ReadMsg] returns without an error, exactly one of [req]
    and [res] is set and [not] is nil: a notification never comes back
    without an error. *)
Theorem ReadMsg_success_is_request_or_response (c : Conn) (rd pd : iface) :
  r_err (fst (ReadMsg c rd pd)) = None ->
  r_not (fst (ReadMsg c rd pd)) = None
  /\ is_set (r_req (fst (ReadMsg c rd pd))) = negb (is_set (r_res (fst (ReadMsg c rd pd)))).
Proof.
  unfold ReadMsg. destruct (conn_Read c) as [[e|data] c']; cbn [fst]; [discriminate|].
  unfold decodeMsg. destruct (unmarshal_message data) as [e|msg]; [discriminate|].
  branch_cases msg rd pd; cbn; intros H; try discriminate H; split; reflexivity.
Qed.

Lemma ReadMsg_success_is_request_or_response_witness :
  r_not (fst (ReadMsg (conn_with (wire "{'id':'7','result':42}")) Nil Nil)) = None
  /\ is_set (r_req (fst (ReadMsg (conn_with (wire "{'id':'7','result':42}")) Nil Nil)))
     = negb (is_set (r_res (fst (ReadMsg (conn_with (wire "{'id':'7','result':42}")) Nil Nil)))).
Proof.
  apply (ReadMsg_success_is_request_or_response
           (conn_with (wire "{'id':'7','result':42}")) Nil Nil).
  vm_compute. reflexivity.
Defined.

(** X2: the malformed-message error is returned exactly for the frames
    that decode to an envelope without id, whether or not a method is
    present. *)
Theorem malformed_message_iff_no_id (data : bytes) (rd pd : iface) :
  r_err (decodeMsg data rd pd) = Some ErrMalformedMessage
  <-> exists msg, unmarshal_message data = inr msg /\ msg_ID msg = [].
Proof.
  unfold decodeMsg. split.
  - destruct (unmarshal_message data) as [e|msg] eqn:Hm.
    + apply unmarshal_message_error in Hm. cbn. intros H. inversion H; subst.
      destruct Hm as [[_ Hm]|[_ Hm]]; discriminate Hm.
    + intros H. exists msg. split; [reflexivity|].
      revert H. branch_cases msg rd pd; cbn; intros H; try discriminate H;
        try (destruct (msg_ID msg); [reflexivity|discriminate]);
        inversion H; subst;
        match goal with
        | Hu : unmarshal_iface _ _ = inl ErrMalformedMessage |- _ =>
          apply unmarshal_iface_error in Hu; destruct Hu as [[_ Hu]|[_ Hu]]; discriminate Hu
        end.
  - intros (msg & Hm & Hid). rewrite Hm, Hid. reflexivity.
Qed.



(** X5: each target is consulted only in its own branch: [resultData]
    has no effect on a frame with a method, [paramsData] none on a frame
    without a method, and neither on a frame without id. *)
Theorem targets_used_in_their_branch
  (data : bytes) (msg : message) (rd rd' pd pd' : iface) :
  unmarshal_message data = inr msg ->
  (msg_Method msg <> [] -> decodeMsg data rd pd = decodeMsg data rd' pd)
  /\ (msg_Method msg = [] -> decodeMsg data rd pd = decodeMsg data rd pd')
  /\ (msg_ID msg = [] -> decodeMsg data rd pd = decodeMsg data rd' pd').
Proof.
  intros Hm. unfold decodeMsg. rewrite Hm. split; [|split].
  - intros H. rewrite (is_empty_false _ H). destruct (is_empty (msg_ID msg)); reflexivity.
  - intros H. rewrite H. destruct (is_empty (msg_ID msg)); reflexivity.
  - intros H. rewrite H. reflexivity.
Qed.

Lemma targets_used_in_their_branch_witness :
  decodeMsg (wire "{'id':'7','method':'sum','params':[1]}") Nil Nil
  = decodeMsg (wire "{'id':'7','method':'sum','params':[1]}")
              (Pointer TInt (JNum (str "0"))) Nil.
Proof.
  refine (proj1 (targets_used_in_their_branch
                   (wire "{'id':'7','method':'sum','params':[1]}")
                   (mkMessage (str "7") (str "sum") (Some (JArr [JNum (str "1")])) None None)
                   Nil (Pointer TInt (JNum (str "0"))) Nil Nil _) _).
  - vm_compute. reflexivity.
  - discriminate.
Defined.

(** X6: a returned Response has an Error exactly when the frame has an
    error object, and then code and message are those of the frame; a
    frame with only a result never gets an Error. *)
Theorem response_error_follows_frame
  (data : bytes) (msg : message) (rd pd : iface) (resp : Response) :
  unmarshal_message data = inr msg ->
  r_res (decodeMsg data rd pd) = Some resp ->
  match msg_Error msg with
  | None => res_Error resp = None
  | Some e => exists E, res_Error resp = Some E
                        /\ Code E = re_Code e /\ Message E = re_Message e
  end.
Proof.
  intros Hm. unfold decodeMsg. rewrite Hm.
  branch_cases msg rd pd; cbn; intros H; try discriminate H;
    inversion H; subst; cbn; eauto.
Qed.

Lemma response_error_follows_frame_witness :
  exists E, res_Error (mkResponse (str "7") Nil
                         (Some (mkRE 5 (str "boom") (Generic (JBool true))))) = Some E
            /\ Code E = 5%Z /\ Message E = str "boom".
Proof.
  apply (response_error_follows_frame
           (wire "{'id':'7','error':{'code':5,'message':'boom','data':true}}")
           (mkMessage (str "7") [] None None
              (Some (mkResError 5 (str "boom") (Some (JBool true)))))
           Nil Nil
           (mkResponse (str "7") Nil (Some (mkRE 5 (str "boom") (Generic (JBool true)))))).
  - vm_compute. reflexivity.
  - vm_compute. reflexivity.
Defined.

(** ** Integers: reading what [strconv] printed *)















(** ** Frames: reading what the write operations wrote *)

Lemma unmarshal_printed_object (ms : list (bytes * json)) :
  clean (JObj ms) = true -> encodable (JObj ms) = true ->
  (json_depth (JObj ms) <= maxNestingDepth)%nat ->
  unmarshal_message (print (JObj ms))
  = match fold_left message_member ms (Some zero_message) with
    | Some m => inr m
    | None => inl ErrUnmarshalType
    end.
Proof.
  intros Hc He Hd. unfold unmarshal_message. now rewrite parse_print.
Qed.

Ltac eval_keys :=
  repeat match goal with
  | |- context [key_is ?k ?n] =>
    let b := eval vm_compute in (key_is k n) in
    change (key_is k n) with b
  end.

Lemma optional_written (omitempty : bool) (name : string) (i : iface) (v : json) :
  image i = Some v ->
  optional omitempty name i
  = Some (if omitempty && is_nil i then [] else [(str name, v)]).
Proof.
  intros H. unfold optional. destruct (omitempty && is_nil i); [reflexivity|].
  now rewrite H.
Qed.

Lemma omitted_is_null (omitempty : bool) (i : iface) (v : json) :
  image i = Some v -> omitempty && is_nil i = true -> v = JNull.
Proof.
  intros H Ho. apply andb_prop in Ho. destruct Ho as [_ Hn].
  destruct i; try discriminate Hn. now inversion H.
Qed.

Lemma image_checked (v : json) : encodable v = true -> checked v = Some v.
Proof. intros H. unfold checked. now rewrite H. Qed.

(** X7: a Notification with a non-empty valid UTF-8 method, written by
    [Marshal], is read by [ReadMsg] as a Notification with the same
    method and params of the same JSON value (kept as raw JSON, whatever
    the targets), together with the malformed-message error. *)
Theorem notification_roundtrip
  (omitempty : bool) (n : Notification) (v : json) (rd pd : iface) :
  not_Method n <> [] -> utf8_valid (not_Method n) = true ->
  image (not_Params n) = Some v -> clean v = true ->
  (json_depth v <? maxNestingDepth)%nat = true ->
  exists data p,
    Marshal omitempty (MNotification n) = inr data
    /\ fst (ReadMsg (conn_with data) rd pd)
       = mkRead None None (Some (mkNotification (not_Method n) p))
                (Some ErrMalformedMessage)
    /\ image p = Some v.
Proof.
  intros Hmeth Hvm Him Hc Hd. apply Nat.ltb_lt in Hd.
  pose proof (image_encodable _ _ Him) as He.
  unfold Marshal, fields. rewrite (optional_written _ _ _ _ Him).
  unfold ReadMsg, conn_with, conn_Read. cbn [incoming fst].
  destruct (omitempty && is_nil (not_Params n)) eqn:Ho.
  - pose proof (omitted_is_null _ _ _ Him Ho) as ->.
    eexists. exists (RawMsg None). split; [reflexivity|]. split; [|reflexivity].
    unfold decodeMsg. rewrite unmarshal_printed_object.
    + cbn [fold_left message_member]. eval_keys. cbn.
      rewrite (is_empty_false _ Hmeth). reflexivity.
    + cbn [clean forallb fst snd]. rewrite Hvm. reflexivity.
    + reflexivity.
    + cbn [json_depth fold_right snd]. lia.
  - eexists. exists (RawMsg (Some v)). split; [reflexivity|].
    split; [|cbn [image]; now apply image_checked].
    unfold decodeMsg. rewrite unmarshal_printed_object.
    + cbn [fold_left message_member]. eval_keys. cbn.
      rewrite (is_empty_false _ Hmeth). reflexivity.
    + cbn [clean forallb fst snd]. rewrite Hvm, Hc. reflexivity.
    + cbn [encodable forallb snd]. rewrite He. reflexivity.
    + cbn [json_depth fold_right snd]. lia.
Qed.

Lemma notification_roundtrip_witness :
  exists data p,
    Marshal true (MNotification (mkNotification (str "tick") (Generic (JArr [JNum (str "1")]))))
    = inr data
    /\ fst (ReadMsg (conn_with data) Nil Nil)
       = mkRead None None (Some (mkNotification (str "tick") p)) (Some ErrMalformedMessage)
    /\ image p = Some (JArr [JNum (str "1")]).
Proof.
  apply (notification_roundtrip true
           (mkNotification (str "tick") (Generic (JArr [JNum (str "1")])))
           (JArr [JNum (str "1")]) Nil Nil).
  - discriminate.
  - reflexivity.
  - reflexivity.
  - reflexivity.
  - vm_compute. reflexivity.
Defined.






(** ** Requests: from the writer to the reader *)








(** ** Frames with an empty identifier or method *)

(** X12: a Request written with an empty method is not read back as a
    Request: [ReadMsg] returns a Response with the request's identifier,
    the result target as it was passed and no Error, without error. *)
Theorem request_with_empty_method_reads_as_response
  (omitempty : bool) (id : bytes) (params : iface) (v : json) (rd pd : iface) :
  id <> [] -> utf8_valid id = true ->
  image params = Some v -> clean v = true ->
  (json_depth v <? maxNestingDepth)%nat = true ->
  exists data,
    Marshal omitempty (MRequest (mkRequest id [] params)) = inr data
    /\ fst (ReadMsg (conn_with data) rd pd)
       = mkRead None (Some (mkResponse id rd None)) None None.
Proof.
  intros Hid Hvi Him Hc Hd. apply Nat.ltb_lt in Hd.
  pose proof (image_encodable _ _ Him) as He.
  unfold Marshal, fields. cbn [req_Params req_ID req_Method].
  rewrite (optional_written _ _ _ _ Him).
  unfold ReadMsg, conn_with, conn_Read. cbn [incoming fst].
  eexists. split; [reflexivity|].
  unfold decodeMsg. rewrite unmarshal_printed_object.
  - destruct (omitempty && is_nil params); cbn [app];
      cbn [fold_left message_member]; eval_keys; cbn -[unmarshal_iface];
      rewrite (is_empty_false _ Hid); cbn -[unmarshal_iface];
      rewrite target_kept; reflexivity.
  - destruct (omitempty && is_nil params); cbn [app clean forallb fst snd];
      rewrite Hvi, ?Hc; reflexivity.
  - destruct (omitempty && is_nil params); cbn [app encodable forallb snd];
      rewrite ?He; reflexivity.
  - destruct (omitempty && is_nil params);
      cbn [app json_depth fold_right snd]; lia.
Qed.

Lemma request_with_empty_method_reads_as_response_witness :
  exists data,
    Marshal false (MRequest (mkRequest (str "7") [] Nil)) = inr data
    /\ fst (ReadMsg (conn_with data) Nil Nil)
       = mkRead None (Some (mkResponse (str "7") Nil None)) None None.
Proof.
  apply (request_with_empty_method_reads_as_response false (str "7") Nil JNull Nil Nil).
  - discriminate.
  - reflexivity.
  - reflexivity.
  - reflexivity.
  - vm_compute. reflexivity.
Defined.

(** X13: [WriteResponse] does not check the identifier: a Response
    written with an empty identifier is a frame that [ReadMsg] rejects
    with the malformed-message error and no message. *)
Theorem response_with_empty_id_is_malformed
  (omitempty : bool) (result : iface) (v : json) (rd pd : iface) :
  image result = Some v -> clean v = true ->
  (json_depth v <? maxNestingDepth)%nat = true ->
  exists data c',
    WriteResponse omitempty (mkConn [] 0 [] [] 0) [] result None = (None, c')
    /\ sent c' = [data]
    /\ fst (ReadMsg (conn_with data) rd pd)
       = mkRead None None None (Some ErrMalformedMessage).
Proof.
  intros Him Hc Hd. apply Nat.ltb_lt in Hd.
  pose proof (image_encodable _ _ Him) as He.
  unfold WriteResponse, WriteMsg, Marshal, fields. cbn [res_Result res_Error res_ID].
  rewrite (optional_written _ _ _ _ Him).
  unfold conn_Write. cbn [write_outcomes sent app].
  eexists. eexists. split; [reflexivity|]. split; [reflexivity|].
  unfold ReadMsg, conn_with, conn_Read. cbn [incoming fst].
  unfold decodeMsg. rewrite unmarshal_printed_object.
  - destruct omitempty; destruct (is_nil result); cbn [andb app];
      cbn [fold_left message_member]; eval_keys; reflexivity.
  - destruct omitempty; destruct (is_nil result); cbn [andb app clean forallb fst snd];
      rewrite ?Hc; reflexivity.
  - destruct omitempty; destruct (is_nil result); cbn [andb app encodable forallb snd];
      rewrite ?He; reflexivity.
  - destruct omitempty; destruct (is_nil result);
      cbn [andb app json_depth fold_right snd]; lia.
Qed.

Lemma response_with_empty_id_is_malformed_witness :
  exists data c',
    WriteResponse true (mkConn [] 0 [] [] 0) [] (Generic (JBool true)) None = (None, c')
    /\ sent c' = [data]
    /\ fst (ReadMsg (conn_with data) Nil Nil)
       = mkRead None None None (Some ErrMalformedMessage).
Proof.
  apply (response_with_empty_id_is_malformed true (Generic (JBool true)) (JBool true) Nil Nil).
  - reflexivity.
  - reflexivity.
  - vm_compute. reflexivity.
Defined.

(** X14: when the generator succeeds but the params cannot be encoded,
    [WriteRequest] returns the generated identifier together with the
    encoding error; the identifier is spent and nothing reaches the
    connection. *)
Theorem WriteRequest_encode_failure
  (omitempty : bool) (g g' : Gen) (c : Conn) (id method : bytes) (params : iface) :
  GenID g = (inr id, g') -> image params = None ->
  WriteRequest omitempty g c method params = ((id, Some ErrMarshal), g', c)
  /\ gen_calls g' = S (gen_calls g).
Proof.
  intros Hg Him. split.
  - unfold WriteRequest, WriteMsg, Marshal, fields, optional. rewrite Hg.
    cbn [req_Params]. rewrite Him.
    assert (Hn : is_nil params = false) by (destruct params; try reflexivity; discriminate).
    rewrite Hn, andb_false_r. reflexivity.
  - unfold GenID in Hg. destruct (gen_outcomes g); inversion Hg; reflexivity.
Qed.

Lemma WriteRequest_encode_failure_witness :
  WriteRequest true (mkGen [inr (str "id-1")] 0) (mkConn [] 0 [] [] 0) (str "m") Unsupported
  = ((str "id-1", Some ErrMarshal), mkGen [] 1, mkConn [] 0 [] [] 0)
  /\ gen_calls (mkGen [] 1) = S (gen_calls (mkGen [inr (str "id-1")] 0)).
Proof.
  apply (WriteRequest_encode_failure true (mkGen [inr (str "id-1")] 0) (mkGen [] 1)
           (mkConn [] 0 [] [] 0) (str "id-1") (str "m") Unsupported).
  - reflexivity.
  - reflexivity.
Defined.

Lemma WriteMsg_ok_writes (omitempty : bool) (c c' : Conn) (m : Msg) :
  WriteMsg omitempty c m = (None, c') -> writes c' = S (writes c).
Proof.
  unfold WriteMsg. destruct (Marshal omitempty m) as [e|data]; [discriminate|].
  unfold conn_Write. destruct (write_outcomes c) as [|[e|] rest]; intros H;
    inversion H; subst; reflexivity.
Qed.

(** X15: frames reach the connection in the order of the calls: after two
    successful [WriteMsg] calls the connection holds the encoding of the
    first message followed by the encoding of the second, after what it
    held before. *)
Theorem WriteMsg_in_call_order
  (omitempty : bool) (c c1 c2 : Conn) (m1 m2 : Msg) :
  WriteMsg omitempty c m1 = (None, c1) ->
  WriteMsg omitempty c1 m2 = (None, c2) ->
  exists d1 d2,
    Marshal omitempty m1 = inr d1 /\ Marshal omitempty m2 = inr d2
    /\ sent c2 = sent c ++ [d1; d2] /\ writes c2 = S (S (writes c)).
Proof.
  intros H1 H2.
  destruct (WriteMsg_ok _ _ _ _ H1) as (d1 & Hm1 & Hs1).
  destruct (WriteMsg_ok _ _ _ _ H2) as (d2 & Hm2 & Hs2).
  exists d1, d2. repeat split; try assumption.
  - rewrite Hs2, Hs1, <- app_assoc. reflexivity.
  - rewrite (WriteMsg_ok_writes _ _ _ _ H2), (WriteMsg_ok_writes _ _ _ _ H1).
    reflexivity.
Qed.

Lemma WriteMsg_in_call_order_witness :
  exists d1 d2,
    Marshal true (MOther (Generic (JBool true))) = inr d1
    /\ Marshal true (MOther (Generic (JBool false))) = inr d2
    /\ sent (mkConn [] 0 [] [str "true"; str "false"] 2)
       = sent (mkConn [] 0 [] [] 0) ++ [d1; d2]
    /\ writes (mkConn [] 0 [] [str "true"; str "false"] 2)
       = S (S (writes (mkConn [] 0 [] [] 0))).
Proof.
  apply (WriteMsg_in_call_order true (mkConn [] 0 [] [] 0)
           (mkConn [] 0 [] [str "true"] 1)
           (mkConn [] 0 [] [str "true"; str "false"] 2)
           (MOther (Generic (JBool true))) (MOther (Generic (JBool false)))).
  - reflexivity.
  - reflexivity.
Defined.

(** ** Successive reads *)

(** X16: a frame that fails to decode does not disturb the next read:
    two successive [ReadMsg] calls return the decodings of the first and
    of the second frame of the connection, whatever the first decodes
    to, and leave the frames after them. *)
Theorem ReadMsg_twice
  (c : Conn) (d1 d2 : bytes) (rest : list (error + bytes)) (rd pd rd' pd' : iface) :
  incoming c = inr d1 :: inr d2 :: rest ->
  fst (ReadMsg c rd pd) = decodeMsg d1 rd pd
  /\ fst (ReadMsg (snd (ReadMsg c rd pd)) rd' pd') = decodeMsg d2 rd' pd'
  /\ incoming (snd (ReadMsg (snd (ReadMsg c rd pd)) rd' pd')) = rest
  /\ reads (snd (ReadMsg (snd (ReadMsg c rd pd)) rd' pd')) = S (S (reads c)).
Proof.
  intros H. unfold ReadMsg at 2 4 6. unfold ReadMsg. unfold conn_Read. rewrite H.
  cbn. repeat split; reflexivity.
Qed.

Lemma ReadMsg_twice_witness :
  fst (ReadMsg (mkConn [inr (str "not json"); inr (wire "{'id':'7','result':42}")] 0 [] [] 0)
               Nil Nil)
  = decodeMsg (str "not json") Nil Nil
  /\ fst (ReadMsg (snd (ReadMsg (mkConn [inr (str "not json");
                                         inr (wire "{'id':'7','result':42}")] 0 [] [] 0)
                                Nil Nil)) Nil Nil)
     = decodeMsg (wire "{'id':'7','result':42}") Nil Nil
  /\ incoming (snd (ReadMsg (snd (ReadMsg (mkConn [inr (str "not json");
                                         inr (wire "{'id':'7','result':42}")] 0 [] [] 0)
                                Nil Nil)) Nil Nil)) = []
  /\ reads (snd (ReadMsg (snd (ReadMsg (mkConn [inr (str "not json");
                                         inr (wire "{'id':'7','result':42}")] 0 [] [] 0)
                                Nil Nil)) Nil Nil))
     = S (S (reads (mkConn [inr (str "not json");
                            inr (wire "{'id':'7','result':42}")] 0 [] [] 0))).
Proof.
  apply (ReadMsg_twice
           (mkConn [inr (str "not json"); inr (wire "{'id':'7','result':42}")] 0 [] [] 0)
           (str "not json") (wire "{'id':'7','result':42}") [] Nil Nil Nil Nil).
  reflexivity.
Defined.
